(** * String Analysis API: a shallow embedding of [app.py]

    The service keeps analysed strings in an in-memory dictionary keyed by
    the SHA-256 of their content.  This development embeds the analyser,
    the natural-language query parser, the filter engine and the five
    endpoints, and proves the documented properties of the service about
    them.

    Conventions.
    - A Python [str] is the list of its code points ([N]); a literal such
      as [py "racecar"] is ASCII.  A Python [int] is a [Z].
    - What the interpreter takes from its Unicode database ([str.lower],
      the whitespace behind [str.split], the decimal digits behind [\d]
      and [int]) is the class [UnicodeData].  A result stated for every
      instance holds for the tables of any interpreter; [ascii_tables] is
      the instance the concrete runs use.
    - [int] refuses a run of digits longer than the interpreter's
      [sys.get_int_max_str_digits()], the class [IntMaxStrDigits], 4300
      in the concrete runs: it raises [ValueError], which is [None] here
      and in the parser, and [ValueError] at the endpoint.
    - [hashlib.sha256] and [str.encode] are FIPS 180-4 and UTF-8.  Text
      with a lone surrogate has no encoding: [compute_sha256] raises, which
      is [None] here and [UnicodeEncodeError] at an endpoint.
    - An endpoint is its handler: a function from the store to an outcome
      and the store after it.  What FastAPI checks from the declarations of
      the parameters before it calls the handler is not part of it.  The
      clock read by [datetime.utcnow()] is an argument. *)

From Stdlib Require Import ZArith NArith.
From stdpp Require Import base option list gmap strings.

Local Open Scope N_scope.

(** ** Text *)

Abbreviation char := N.
Abbreviation str := (list N).

(** An ASCII literal as a Python string. *)
Definition py (s : string) : str :=
  Ascii.N_of_ascii <$> String.list_ascii_of_string s.

(** [text.startswith(prefix)], returning what follows the prefix. *)
Fixpoint strip_prefix (prefix text : str) : option str :=
  match prefix, text with
  | [], _ => Some text
  | p :: prefix', c :: text' =>
      if decide (p = c) then strip_prefix prefix' text' else None
  | _ :: _, [] => None
  end.

(** [needle in hay] on strings: substring search. *)
Fixpoint str_contains (needle hay : str) : bool :=
  match strip_prefix needle hay with
  | Some _ => true
  | None =>
      match hay with
      | [] => false
      | _ :: hay' => str_contains needle hay'
      end
  end.

(** [text.replace(old, new)] for a one-character [old]. *)
Definition str_replace (old : char) (new : str) (text : str) : str :=
  c ← text; if decide (c = old) then new else [c].

(** ** The interpreter's Unicode tables *)

Definition ascii_lower (c : char) : char :=
  if (65 <=? c) && (c <=? 90) then c + 32 else c.

(** ASCII whitespace: TAB, LF, VT, FF, CR, FS, GS, RS, US and SPACE. *)
Definition ascii_isspace (c : char) : bool :=
  ((9 <=? c) && (c <=? 13)) || ((28 <=? c) && (c <=? 32)).

Definition ascii_decimal (c : char) : option N :=
  if (48 <=? c) && (c <=? 57) then Some (c - 48) else None.

Definition is_ascii (c : char) : bool := c <? 128.

Class UnicodeData := {
  (** [str.lower()] *)
  lower : str → str;
  (** the whitespace characters that [str.split()] separates on *)
  isspace : char → bool;
  (** the decimal digits matched by [\d], with their value for [int()] *)
  decimal : char → option N;
  lower_ascii s : forallb is_ascii s = true → lower s = ascii_lower <$> s;
  isspace_ascii c : is_ascii c = true → isspace c = ascii_isspace c;
  decimal_ascii c : is_ascii c = true → decimal c = ascii_decimal c
}.

(** The tables restricted to ASCII: no code point beyond it has a case
    mapping, is whitespace or is a digit. *)
#[export] Instance ascii_tables : UnicodeData := {|
  lower s := ascii_lower <$> s;
  isspace := ascii_isspace;
  decimal := ascii_decimal;
  lower_ascii _ _ := eq_refl;
  isspace_ascii _ _ := eq_refl;
  decimal_ascii _ _ := eq_refl
|}.

(** ** The limit of [int]

    [sys.get_int_max_str_digits()]: [int] raises [ValueError] on more
    digits than this, unless it is 0, which lifts the limit; a run of up
    to 640 digits is converted without a look at the limit. *)

Class IntMaxStrDigits := { int_max_str_digits : N }.

(** The default of the interpreter. *)
#[export] Instance default_int_max_str_digits : IntMaxStrDigits :=
  {| int_max_str_digits := 4300 |}.

(** ** UTF-8 and SHA-256 ([text.encode()], [hashlib.sha256]) *)

Local Notation "x >> n" := (N.shiftr x n) (at level 32, left associativity, only parsing).
Local Notation "x << n" := (N.shiftl x n) (at level 32, left associativity, only parsing).
Local Notation "x .| y" := (N.lor x y) (at level 33, left associativity, only parsing).
Local Notation "x .& y" := (N.land x y) (at level 32, left associativity, only parsing).
Local Notation "x .^ y" := (N.lxor x y) (at level 33, left associativity, only parsing).

(** One code point as UTF-8; [None] is the [UnicodeEncodeError] raised for
    a surrogate. *)
Definition utf8_char (c : char) : option (list N) :=
  if c <? 0x80 then Some [c]
  else if c <? 0x800 then Some [0xC0 .| (c >> 6); 0x80 .| (c .& 0x3F)]
  else if (0xD800 <=? c) && (c <=? 0xDFFF) then None
  else if c <? 0x10000 then
    Some [0xE0 .| (c >> 12); 0x80 .| ((c >> 6) .& 0x3F); 0x80 .| (c .& 0x3F)]
  else if c <? 0x110000 then
    Some [0xF0 .| (c >> 18); 0x80 .| ((c >> 12) .& 0x3F);
          0x80 .| ((c >> 6) .& 0x3F); 0x80 .| (c .& 0x3F)]
  else None.

Definition encode (text : str) : option (list N) :=
  mjoin <$> mapM utf8_char text.

Module SHA256.

Definition w32 (x : N) : N := x mod 2 ^ 32.
Definition add32 (x y : N) : N := w32 (x + y).
Definition rotr (n x : N) : N := (x >> n) .| w32 (x << (32 - n)).

Definition Ch (x y z : N) : N := (x .& y) .^ ((x .^ 0xFFFFFFFF) .& z).
Definition Maj (x y z : N) : N := (x .& y) .^ (x .& z) .^ (y .& z).
Definition Sigma0 (x : N) : N := rotr 2 x .^ rotr 13 x .^ rotr 22 x.
Definition Sigma1 (x : N) : N := rotr 6 x .^ rotr 11 x .^ rotr 25 x.
Definition sigma0 (x : N) : N := rotr 7 x .^ rotr 18 x .^ (x >> 3).
Definition sigma1 (x : N) : N := rotr 17 x .^ rotr 19 x .^ (x >> 10).

(** The first 64 primes. *)
Definition primes : list N :=
  [   2;   3;   5;   7;  11;  13;  17;  19;  23;  29;  31;  37;  41;  43;
     47;  53;  59;  61;  67;  71;  73;  79;  83;  89;  97; 101; 103; 107;
    109; 113; 127; 131; 137; 139; 149; 151; 157; 163; 167; 173; 179; 181;
    191; 193; 197; 199; 211; 223; 227; 229; 233; 239; 241; 251; 257; 263;
    269; 271; 277; 281; 283; 293; 307; 311 ].

(** The integer cube root of [n < 2 ^ 108], one bit at a time. *)
Definition cbrt (n : N) : N :=
  foldl (λ r i, let r' := r + 2 ^ N.of_nat i in if r' * r' * r' <=? n then r' else r)
        0 (reverse (seq 0 36)).

(** The round constants: the first 32 bits of the fractional parts of the
    cube roots of the primes. *)
Definition K : list N := (λ p, w32 (cbrt (p << 96))) <$> primes.

(** The initial hash value: the same of the square roots of the first
    eight primes. *)
Definition H0 : list N := (λ p, w32 (N.sqrt (p << 64))) <$> take 8 primes.

(** Big-endian bytes of [x], [n] of them. *)
Fixpoint be_bytes (n : nat) (x : N) : list N :=
  match n with
  | O => []
  | S n' => ((x >> (8 * N.of_nat n')) .& 0xFF) :: be_bytes n' x
  end.

Definition be_word (bs : list N) : N :=
  foldl (λ acc b, (acc << 8) .| b) 0 bs.

(** The message, a 1 bit, zeros up to 56 modulo 64, and the bit length. *)
Definition pad (msg : list N) : list N :=
  let len := N.of_nat (length msg) in
  let zeros := (64 - (len + 9) mod 64) mod 64 in
  msg ++ [0x80] ++ replicate (N.to_nat zeros) 0 ++ be_bytes 8 (8 * len).

(** Cut a list into runs of [n] elements; [fuel] bounds their number. *)
Fixpoint chunks {A} (fuel n : nat) (l : list A) : list (list A) :=
  match fuel, l with
  | O, _ | _, [] => []
  | S fuel', _ => take n l :: chunks fuel' n (drop n l)
  end.

Definition words (block : list N) : list N :=
  be_word <$> chunks 16 4 block.

(** The message schedule: [t] more words after those of [ws]. *)
Fixpoint schedule (t : nat) (ws : list N) : list N :=
  match t with
  | O => ws
  | S t' =>
      let i := length ws in
      let at_ k := default 0 (ws !! (i - k)%nat) in
      schedule t'
        (ws ++ [add32 (add32 (sigma1 (at_ 2%nat)) (at_ 7%nat))
                      (add32 (sigma0 (at_ 15%nat)) (at_ 16%nat))])
  end.

Definition round (st : list N) (kw : N * N) : list N :=
  match st with
  | [a; b; c; d; e; f; g; h] =>
      let t1 := add32 (add32 (add32 h (Sigma1 e)) (add32 (Ch e f g) kw.1)) kw.2 in
      let t2 := add32 (Sigma0 a) (Maj a b c) in
      [add32 t1 t2; a; b; c; add32 d t1; e; f; g]
  | _ => st
  end.

Definition compress (h : list N) (block : list N) : list N :=
  zip_with add32 h (foldl round h (zip K (schedule 48 (words block)))).

Definition digest (msg : list N) : list N :=
  let padded := pad msg in
  h ← foldl compress H0 (chunks (length padded) 64 padded); be_bytes 4 h.

Definition hex_digit (d : N) : char := if d <? 10 then 48 + d else 87 + d.

Definition hexdigest (msg : list N) : str :=
  b ← digest msg; [hex_digit (b >> 4); hex_digit (b .& 0xF)].

End SHA256.

(** [hashlib.sha256(text.encode()).hexdigest()] *)
Definition compute_sha256 (text : str) : option str :=
  SHA256.hexdigest <$> encode text.

(** ** The clock ([datetime.utcnow().isoformat()]) *)

Record datetime := {
  year : N; month : N; day : N;
  hour : N; minute : N; second : N; microsecond : N
}.

(** The [width] low decimal digits of [n], zero-padded. *)
Fixpoint zero_padded (width : nat) (n : N) : str :=
  match width with
  | O => []
  | S width' => zero_padded width' (n / 10) ++ [48 + n mod 10]
  end.

(** [YYYY-MM-DDTHH:MM:SS.ffffff]; the fraction is left out when it is 0. *)
Definition isoformat (t : datetime) : str :=
  zero_padded 4 (year t) ++ py "-" ++ zero_padded 2 (month t) ++ py "-" ++
  zero_padded 2 (day t) ++ py "T" ++ zero_padded 2 (hour t) ++ py ":" ++
  zero_padded 2 (minute t) ++ py ":" ++ zero_padded 2 (second t) ++
  (if microsecond t =? 0 then [] else py "." ++ zero_padded 6 (microsecond t)).

(** ** Analyzer *)

Record StringProperties := {
  p_length : Z;
  p_is_palindrome : bool;
  p_unique_characters : Z;
  p_word_count : Z;
  p_sha256_hash : str;
  p_character_frequency_map : gmap N Z
}.

(** The dictionary [analyze_string] returns and the store keeps. *)
Record StringResponse := {
  r_id : str;
  r_value : str;
  r_properties : StringProperties;
  r_created_at : str
}.

Section Analyzer.
Context `{tables : UnicodeData} `{limit : IntMaxStrDigits}.

(** [cleaned == cleaned[::-1]] for [cleaned = text.lower().replace(" ", "")] *)
Definition is_palindrome (text : str) : bool :=
  let cleaned := str_replace 32 [] (lower text) in
  bool_decide (cleaned = reverse cleaned).

(** [len(set(text))] *)
Definition count_unique_characters (text : str) : Z :=
  Z.of_nat (size (list_to_set text : gset N)).

(** [text.split()]: the maximal runs of non-whitespace characters.  [word]
    is the run being read, if one has started. *)
Fixpoint split_from (word : option str) (text : str) : list str :=
  match text with
  | [] => option_list word
  | c :: text' =>
      if isspace c then option_list word ++ split_from None text'
      else split_from (Some (default [] word ++ [c])) text'
  end.

Definition split (text : str) : list str := split_from None text.

(** [len(text.split())] *)
Definition count_words (text : str) : Z := Z.of_nat (length (split text)).

(** [Counter(text)]: one more for each character read. *)
Definition Counter (text : str) : gmap N Z :=
  foldl (λ counts c, <[c := (default 0 (counts !! c) + 1)%Z]> counts) ∅ text.

(** [dict(Counter(text))] *)
Definition get_character_frequency (text : str) : gmap N Z := Counter text.

(** [now] is what [datetime.utcnow()] reads; [None] is the exception of
    [compute_sha256]. *)
Definition analyze_string (now : datetime) (value : str) : option StringResponse :=
  sha256_hash ← compute_sha256 value;
  let properties := {|
    p_length := Z.of_nat (length value);
    p_is_palindrome := is_palindrome value;
    p_unique_characters := count_unique_characters value;
    p_word_count := count_words value;
    p_sha256_hash := sha256_hash;
    p_character_frequency_map := get_character_frequency value
  |} in
  Some {|
    r_id := sha256_hash;
    r_value := value;
    r_properties := properties;
    r_created_at := isoformat now ++ py "Z"
  |}.

End Analyzer.

(** ** Regular expressions ([re.search])

    A backtracking matcher for the constructs the query patterns use.
    Alternatives are tried left to right and repetition is greedy, as in
    [re]; the continuation [k] is the rest of the pattern. *)

Inductive regex :=
| Lit (s : str)                 (* literal text *)
| Class (p : char → bool)       (* one character of a class *)
| Seq (r1 r2 : regex)           (* r1 r2 *)
| Alt (r1 r2 : regex)           (* r1|r2 *)
| Opt (r : regex)               (* r? *)
| Plus (p : char → bool)        (* c+ for a class c *)
| Group (r : regex).            (* (r), capturing group 1 *)

(** [c+] from [text]: one character of the class, then as many more as
    lets the rest of the pattern match. *)
Fixpoint match_plus {R} (p : char → bool) (text : str) (k : str → option R) : option R :=
  match text with
  | c :: text' =>
      if p c then
        match match_plus p text' k with
        | Some m => Some m
        | None => k text'
        end
      else None
  | [] => None
  end.

(** Match [r] at the start of [text]; [g] is group 1 so far. *)
Fixpoint match_at {R} (r : regex) (text : str) (g : option str)
    (k : str → option str → option R) : option R :=
  match r with
  | Lit s =>
      match strip_prefix s text with
      | Some rest => k rest g
      | None => None
      end
  | Class p =>
      match text with
      | c :: rest => if p c then k rest g else None
      | [] => None
      end
  | Seq r1 r2 => match_at r1 text g (λ rest g', match_at r2 rest g' k)
  | Alt r1 r2 =>
      match match_at r1 text g k with
      | Some m => Some m
      | None => match_at r2 text g k
      end
  | Opt r' =>
      match match_at r' text g k with
      | Some m => Some m
      | None => k text g
      end
  | Plus p => match_plus p text (λ rest, k rest g)
  | Group r' =>
      match_at r' text g
        (λ rest _, k rest (Some (take (length text - length rest) text)))
  end.

(** [re.search(r, text)]: the match at the leftmost position that has
    one, given by its group 1. *)
Fixpoint re_search (r : regex) (text : str) : option (option str) :=
  match match_at r text None (λ _ g, Some g) with
  | Some m => Some m
  | None =>
      match text with
      | [] => None
      | _ :: text' => re_search r text'
      end
  end.

(** [m.group(1)] *)
Definition group1 (m : option str) : str := default [] m.

(** ** Query interpreter *)

(** The [filters] dictionary: a key is present when its field is [Some]. *)
Record Filters := {
  f_is_palindrome : option bool;
  f_min_length : option Z;
  f_max_length : option Z;
  f_word_count : option Z;
  f_contains_character : option str
}.

(** [{}] *)
Definition no_filters : Filters :=
  {| f_is_palindrome := None; f_min_length := None; f_max_length := None;
     f_word_count := None; f_contains_character := None |}.

(** [not filters] *)
Definition filters_empty (f : Filters) : bool :=
  match f with
  | {| f_is_palindrome := None; f_min_length := None; f_max_length := None;
       f_word_count := None; f_contains_character := None |} => true
  | _ => false
  end.

(** [filters[key] = v] *)
Definition set_is_palindrome (v : bool) (f : Filters) : Filters :=
  {| f_is_palindrome := Some v; f_min_length := f_min_length f;
     f_max_length := f_max_length f; f_word_count := f_word_count f;
     f_contains_character := f_contains_character f |}.
Definition set_min_length (v : Z) (f : Filters) : Filters :=
  {| f_is_palindrome := f_is_palindrome f; f_min_length := Some v;
     f_max_length := f_max_length f; f_word_count := f_word_count f;
     f_contains_character := f_contains_character f |}.
Definition set_max_length (v : Z) (f : Filters) : Filters :=
  {| f_is_palindrome := f_is_palindrome f; f_min_length := f_min_length f;
     f_max_length := Some v; f_word_count := f_word_count f;
     f_contains_character := f_contains_character f |}.
Definition set_word_count (v : Z) (f : Filters) : Filters :=
  {| f_is_palindrome := f_is_palindrome f; f_min_length := f_min_length f;
     f_max_length := f_max_length f; f_word_count := Some v;
     f_contains_character := f_contains_character f |}.
Definition set_contains_character (v : str) (f : Filters) : Filters :=
  {| f_is_palindrome := f_is_palindrome f; f_min_length := f_min_length f;
     f_max_length := f_max_length f; f_word_count := f_word_count f;
     f_contains_character := Some v |}.

Section Interpreter.
Context `{tables : UnicodeData} `{limit : IntMaxStrDigits}.

(** [\d] *)
Definition is_digit (c : char) : bool := bool_decide (is_Some (decimal c)).

(** [[a-z]] *)
Definition is_a_to_z (c : char) : bool := (97 <=? c) && (c <=? 122).

(** The digits of [int(digits)] are more than the interpreter converts:
    more than 640 and more than a limit that is not 0.  Leading zeros
    count. *)
Definition exceeds_limit (digits : str) : bool :=
  let n := N.of_nat (length digits) in
  (640 <? n) && (0 <? int_max_str_digits) && (int_max_str_digits <? n).

(** [int(digits)] on a run of decimal digits, which is what [(\d+)]
    captures; [None] is the [ValueError] for a run that exceeds the
    limit. *)
Definition int (digits : str) : option Z :=
  if exceeds_limit digits then None
  else Some (Z.of_N (foldl (λ n c, 10 * n + default 0 (decimal c)) 0 digits)).

(** [r'longer than (\d+)'] *)
Definition re_longer_than : regex :=
  Seq (Lit (py "longer than ")) (Group (Plus is_digit)).

(** [r'shorter than (\d+)'] *)
Definition re_shorter_than : regex :=
  Seq (Lit (py "shorter than ")) (Group (Plus is_digit)).

(** [r'at least (\d+)'] *)
Definition re_at_least : regex :=
  Seq (Lit (py "at least ")) (Group (Plus is_digit)).

(** [r'contain(?:ing|s)? (?:the )?letter ([a-z])'] *)
Definition re_contains_letter : regex :=
  Seq (Lit (py "contain"))
 (Seq (Opt (Alt (Lit (py "ing")) (Lit (py "s"))))
 (Seq (Lit (py " "))
 (Seq (Opt (Lit (py "the ")))
 (Seq (Lit (py "letter "))
      (Group (Class is_a_to_z)))))).

(** [None] is the [ValueError] of [int], which ends the function where
    it is raised. *)
Definition parse_natural_language_query (query : str) : option Filters :=
  let query_lower := lower query in
  let filters := no_filters in
  (* Parse palindrome *)
  let filters :=
    if str_contains (py "palindrom") query_lower
    then set_is_palindrome true filters else filters in
  (* Parse word count *)
  let filters :=
    if str_contains (py "single word") query_lower
       || str_contains (py "one word") query_lower
    then set_word_count 1 filters
    else if str_contains (py "two word") query_lower
    then set_word_count 2 filters
    else if str_contains (py "three word") query_lower
    then set_word_count 3 filters
    else filters in
  (* Parse length requirements *)
  filters ←
    match re_search re_longer_than query_lower with
    | Some length_match =>
        n ← int (group1 length_match); Some (set_min_length (n + 1) filters)
    | None => Some filters
    end;
  filters ←
    match re_search re_shorter_than query_lower with
    | Some length_match =>
        n ← int (group1 length_match); Some (set_max_length (n - 1) filters)
    | None => Some filters
    end;
  filters ←
    match re_search re_at_least query_lower with
    | Some length_match =>
        n ← int (group1 length_match); Some (set_min_length n filters)
    | None => Some filters
    end;
  (* Parse character contains *)
  let filters :=
    match re_search re_contains_letter query_lower with
    | Some char_match => set_contains_character (group1 char_match) filters
    | None => filters
    end in
  (* Parse "first vowel" as 'a' *)
  let filters :=
    if str_contains (py "first vowel") query_lower
    then set_contains_character (py "a") filters else filters in
  Some filters.

End Interpreter.

(** ** Filter engine *)

Section FilterEngine.
Context `{tables : UnicodeData} `{limit : IntMaxStrDigits}.

Definition apply_filters (strings_list : list StringResponse) (filters : Filters)
    : list StringResponse :=
  let filtered := strings_list in
  let filtered :=
    match f_is_palindrome filters with
    | Some v => filter (λ s, p_is_palindrome (r_properties s) = v) filtered
    | None => filtered
    end in
  let filtered :=
    match f_min_length filters with
    | Some v => filter (λ s, (p_length (r_properties s) >= v)%Z) filtered
    | None => filtered
    end in
  let filtered :=
    match f_max_length filters with
    | Some v => filter (λ s, (p_length (r_properties s) <= v)%Z) filtered
    | None => filtered
    end in
  let filtered :=
    match f_word_count filters with
    | Some v => filter (λ s, p_word_count (r_properties s) = v) filtered
    | None => filtered
    end in
  let filtered :=
    match f_contains_character filters with
    | Some char => filter (λ s, str_contains char (lower (r_value s)) = true) filtered
    | None => filtered
    end in
  filtered.

End FilterEngine.

(** ** Store ([strings_db])

    A Python dictionary keeps its items in insertion order, so it is the
    list of its items; keys are unique in every dictionary the operations
    build from [{}]. *)

Abbreviation dict V := (list (str * V)).

Section Dict.
Context {V : Type}.

(** [d.get(k)] *)
Fixpoint dict_get (k : str) (d : dict V) : option V :=
  match d with
  | [] => None
  | (k', v) :: d' => if decide (k' = k) then Some v else dict_get k d'
  end.

(** [k in d] *)
Definition dict_in (k : str) (d : dict V) : bool := bool_decide (is_Some (dict_get k d)).

(** [d[k] = v]: in place for a key that is there, else a new last item. *)
Fixpoint dict_set (k : str) (v : V) (d : dict V) : dict V :=
  match d with
  | [] => [(k, v)]
  | (k', v') :: d' =>
      if decide (k' = k) then (k, v) :: d' else (k', v') :: dict_set k v d'
  end.

(** [del d[k]] *)
Definition dict_del (k : str) (d : dict V) : dict V :=
  filter (λ item, item.1 ≠ k) d.

(** [list(d.values())] *)
Definition dict_values (d : dict V) : list V := snd <$> d.

End Dict.

Abbreviation strings_db := (dict StringResponse).

(** ** Endpoints *)

(** How a handler ends: with its return value, with the [HTTPException]
    it raises, with the [UnicodeEncodeError] that escapes from
    [compute_sha256], or with the [ValueError] that escapes from the
    [int] of the parser. *)
Inductive outcome (A : Type) :=
| Returned (a : A)
| HTTPException (status_code : Z) (detail : str)
| UnicodeEncodeError
| ValueError.
Arguments Returned {A} a.
Arguments HTTPException {A} status_code detail.
Arguments UnicodeEncodeError {A}.
Arguments ValueError {A}.

(** The error kinds of the service. *)
Definition Conflict {A} : outcome A :=
  HTTPException 409 (py "String already exists in the system").
Definition NotFound {A} : outcome A :=
  HTTPException 404 (py "String does not exist in the system").
Definition Unparseable {A} : outcome A :=
  HTTPException 400 (py "Unable to parse natural language query").
Definition InvalidRange {A} : outcome A :=
  HTTPException 400 (py "min_length cannot be greater than max_length").

Record StringInput := { value : str }.

Record InterpretedQuery := {
  original : str;
  parsed_filters : Filters
}.

Record NaturalLanguageResponse := {
  nl_data : list StringResponse;
  nl_count : Z;
  nl_interpreted_query : InterpretedQuery
}.

Record StringListResponse := {
  sl_data : list StringResponse;
  sl_count : Z;
  sl_filters_applied : Filters
}.

(** [Response(status_code=...)] *)
Record Response := { status_code : Z }.

Section Endpoints.
Context `{tables : UnicodeData} `{limit : IntMaxStrDigits}.

(** [POST /strings] *)
Definition create_string (now : datetime) (string_input : StringInput)
    (db : strings_db) : outcome StringResponse * strings_db :=
  let value := value string_input in
  (* Check if string already exists *)
  match compute_sha256 value with
  | None => (UnicodeEncodeError, db)
  | Some sha256_hash =>
      if dict_in sha256_hash db then (Conflict, db)
      else
        (* Analyze and store string *)
        match analyze_string now value with
        | None => (UnicodeEncodeError, db)
        | Some result => (Returned result, dict_set sha256_hash result db)
        end
  end.

(** [GET /strings/filter-by-natural-language] *)
Definition filter_by_natural_language (query : str) (db : strings_db)
    : outcome NaturalLanguageResponse * strings_db :=
  match parse_natural_language_query query with
  | None => (ValueError, db)
  | Some filters =>
      if filters_empty filters then (Unparseable, db)
      else
        let all_strings := dict_values db in
        let filtered_strings := apply_filters all_strings filters in
        (Returned {|
           nl_data := filtered_strings;
           nl_count := Z.of_nat (length filtered_strings);
           nl_interpreted_query := {| original := query; parsed_filters := filters |}
         |}, db)
  end.

(** [GET /strings] *)
Definition get_all_strings (is_palindrome : option bool)
    (min_length max_length word_count : option Z)
    (contains_character : option str) (db : strings_db)
    : outcome StringListResponse * strings_db :=
  (* Validate parameters *)
  let out_of_order :=
    match min_length, max_length with
    | Some lo, Some hi => bool_decide (lo > hi)%Z
    | _, _ => false
    end in
  if out_of_order then (InvalidRange, db)
  else
    (* Build filters dictionary *)
    let filters := {|
      f_is_palindrome := is_palindrome;
      f_min_length := min_length;
      f_max_length := max_length;
      f_word_count := word_count;
      f_contains_character := lower <$> contains_character
    |} in
    (* Apply filters *)
    let all_strings := dict_values db in
    let filtered_strings := apply_filters all_strings filters in
    (Returned {|
       sl_data := filtered_strings;
       sl_count := Z.of_nat (length filtered_strings);
       sl_filters_applied := filters
     |}, db).

(** [GET /strings/{string_value}] *)
Definition get_string (string_value : str) (db : strings_db)
    : outcome StringResponse * strings_db :=
  match compute_sha256 string_value with
  | None => (UnicodeEncodeError, db)
  | Some sha256_hash =>
      match dict_get sha256_hash db with
      | None => (NotFound, db)
      | Some record => (Returned record, db)
      end
  end.

(** [DELETE /strings/{string_value}] *)
Definition delete_string (string_value : str) (db : strings_db)
    : outcome Response * strings_db :=
  match compute_sha256 string_value with
  | None => (UnicodeEncodeError, db)
  | Some sha256_hash =>
      if dict_in sha256_hash db
      then (Returned {| status_code := 204 |}, dict_del sha256_hash db)
      else (NotFound, db)
  end.

End Endpoints.

(** * Vocabulary of the properties *)

(** Two readings of the clock, one microsecond apart. *)
Definition clock_a : datetime :=
  {| year := 2025; month := 10; day := 21;
     hour := 9; minute := 5; second := 7; microsecond := 1234 |}.
Definition clock_b : datetime :=
  {| year := 2025; month := 10; day := 21;
     hour := 9; minute := 5; second := 7; microsecond := 1235 |}.

(** Removing the spaces, as the specification words it. *)
Definition without_spaces (text : str) : str := filter (λ c, c ≠ 32) text.

(** The text that [encode] accepts: Unicode scalar values. *)
Definition is_scalar_value (c : char) : bool :=
  (c <? 0xD800) || ((0xDFFF <? c) && (c <? 0x110000)).

(** The longest run of characters of a class at the start of [text]. *)
Fixpoint run_of (p : char → bool) (text : str) : str :=
  match text with
  | c :: text' => if p c then c :: run_of p text' else []
  | [] => []
  end.

(** What [kw(c+)] captures at the start of [text]: the run of the class
    that follows [kw], when there is one. *)
Definition number_after (kw : str) (p : char → bool) (text : str) : option str :=
  rest ← strip_prefix kw text;
  match run_of p rest with
  | [] => None
  | digits => Some digits
  end.

(** The first suffix of [text], from the left, on which [f] has a value. *)
Fixpoint first_from {A} (f : str → option A) (text : str) : option A :=
  match f text with
  | Some a => Some a
  | None =>
      match text with
      | [] => None
      | _ :: text' => first_from f text'
      end
  end.

(** [sum(counts.values())] *)
Definition sum_values (counts : gmap N Z) : Z :=
  map_fold (λ _ n total, (n + total)%Z) 0%Z counts.

(** A filter key constrains a record only when it is present. *)
Definition key_holds {A} (key : option A) (P : A → Prop) : Prop :=
  ∀ v, key = Some v → P v.

#[export] Instance key_holds_dec {A} (key : option A) (P : A → Prop)
  `{!∀ v, Decision (P v)} : Decision (key_holds key P).
Proof.
  destruct key as [v|].
  - destruct (decide (P v)) as [HP|HP].
    + left. intros ? [= <-]. exact HP.
    + right. intros Hkey. exact (HP (Hkey v eq_refl)).
  - left. intros ? [=].
Defined.

(** The filter set [{"contains_character": c}]. *)
Definition contains_only (c : str) : Filters := set_contains_character c no_filters.

Section Vocabulary.
Context `{tables : UnicodeData} `{limit : IntMaxStrDigits}.

(** The conjunction of the predicates of the keys present in [f], with
    [member c value] as the predicate of [contains_character]. *)
Definition satisfies_with (member : str → str → Prop) (f : Filters)
    (s : StringResponse) : Prop :=
  key_holds (f_is_palindrome f) (λ v, p_is_palindrome (r_properties s) = v) ∧
  key_holds (f_min_length f) (λ v, (p_length (r_properties s) >= v)%Z) ∧
  key_holds (f_max_length f) (λ v, (p_length (r_properties s) <= v)%Z) ∧
  key_holds (f_word_count f) (λ v, p_word_count (r_properties s) = v) ∧
  key_holds (f_contains_character f) (λ c, member c (r_value s)).

(** What the code tests: the character as given occurs in the lower-cased
    value. *)
Definition in_lowered (c value : str) : Prop :=
  str_contains c (lower value) = true.

(** Case-insensitive membership, as the specification words it: the
    character occurs in the value when case is ignored on both sides. *)
Definition in_ignoring_case (c value : str) : Prop :=
  str_contains (lower c) (lower value) = true.

Definition satisfies : Filters → StringResponse → Prop := satisfies_with in_lowered.
Definition satisfies_spec : Filters → StringResponse → Prop :=
  satisfies_with in_ignoring_case.

#[export] Instance satisfies_with_dec member `{!∀ c v, Decision (member c v)} f s :
  Decision (satisfies_with member f s).
Proof. unfold satisfies_with. apply _. Defined.
#[export] Instance in_lowered_dec c v : Decision (in_lowered c v).
Proof. unfold in_lowered. apply _. Defined.
#[export] Instance in_ignoring_case_dec c v : Decision (in_ignoring_case c v).
Proof. unfold in_ignoring_case. apply _. Defined.
#[export] Instance satisfies_dec f s : Decision (satisfies f s).
Proof. unfold satisfies. apply _. Defined.
#[export] Instance satisfies_spec_dec f s : Decision (satisfies_spec f s).
Proof. unfold satisfies_spec. apply _. Defined.

(** Some recognised pattern matches the phrase. *)
Definition recognized (query : str) : bool :=
  let query_lower := lower query in
  str_contains (py "palindrom") query_lower
  || str_contains (py "single word") query_lower
  || str_contains (py "one word") query_lower
  || str_contains (py "two word") query_lower
  || str_contains (py "three word") query_lower
  || bool_decide (is_Some (re_search re_longer_than query_lower))
  || bool_decide (is_Some (re_search re_shorter_than query_lower))
  || bool_decide (is_Some (re_search re_at_least query_lower))
  || bool_decide (is_Some (re_search re_contains_letter query_lower))
  || str_contains (py "first vowel") query_lower.

(** The number that [r] captures in [text], when it captures one, is
    more than [int] converts. *)
Definition number_exceeds_limit (r : regex) (text : str) : bool :=
  match re_search r text with
  | Some m => exceeds_limit (group1 m)
  | None => false
  end.

(** One of the numbers the parser converts is more than [int] converts. *)
Definition raises_ValueError (query : str) : bool :=
  number_exceeds_limit re_longer_than (lower query)
  || number_exceeds_limit re_shorter_than (lower query)
  || number_exceeds_limit re_at_least (lower query).

(** What holds of every item of the store: its key is the record's
    identity, and the record is the analysis of its value at some time. *)
Definition store_ok (db : strings_db) : Prop :=
  NoDup (db.*1) ∧
  ∀ k record, (k, record) ∈ db →
    r_id record = k ∧ ∃ now, analyze_string now (r_value record) = Some record.

(** The stores the service can be in: it starts empty, and only
    [create_string] and [delete_string] assign to [strings_db]. *)
Inductive reachable : strings_db → Prop :=
| reachable_empty : reachable []
| reachable_create now string_input db out db' :
    reachable db → create_string now string_input db = (out, db') → reachable db'
| reachable_delete string_value db out db' :
    reachable db → delete_string string_value db = (out, db') → reachable db'.

(** The store after one [POST /strings] of [text] at [now]. *)
Definition stored (now : datetime) (text : str) : strings_db :=
  (create_string now {| value := text |} []).2.

(** [client.post("/strings", json={"value": text})] *)
Definition post (now : datetime) (text : string) (db : strings_db) :=
  create_string now {| value := py text |} db.

End Vocabulary.

(** A phrase in which "longer than" is followed by a number of 4301
    digits, one more than [int] converts by default, and "at least" by
    5. *)
Definition long_number_query : str :=
  py "longer than " ++ replicate 4301 49 ++ py " at least 5".

(** The store of [test_filter_by_palindrome]. *)
Definition noon_and_not : strings_db :=
  (post clock_b "not a palindrome here" (post clock_a "noon" []).2).2.

(** The store of [test_filter_by_length]: lengths 5 and 28. *)
Definition short_and_long : strings_db :=
  (post clock_b "this is a much longer string" (post clock_a "short" []).2).2.

(** [w] is a maximal run of [text] free of separators: it is not empty,
    holds no separator, and lies in [text] between separators or the
    ends. *)
Definition maximal_run (sep : char → bool) (text w : str) : Prop :=
  w ≠ [] ∧ Forall (λ c, sep c = false) w ∧
  ∃ before after,
    text = before ++ w ++ after ∧
    (before = [] ∨ ∃ b c, before = b ++ [c] ∧ sep c = true) ∧
    (after = [] ∨ ∃ c a, after = c :: a ∧ sep c = true).

(** The keywords of the three length patterns. *)
Definition length_keywords : list str :=
  [py "longer than "; py "shorter than "; py "at least "].

(** [text.count(c)] *)
Definition occurrences (c : char) (text : str) : Z :=
  Z.of_nat (length (filter (λ x, x = c) text)).

(** A digit of [hexdigest()]: 0 to 9 or a to f. *)
Definition is_hex_digit (c : char) : bool :=
  ((48 <=? c) && (c <=? 57)) || ((97 <=? c) && (c <=? 102)).

(** Somewhere in [text], [kw] is followed by a character of the class. *)
Definition number_follows (kw : str) (p : char → bool) (text : str) : Prop :=
  ∃ before d after, text = before ++ kw ++ d :: after ∧ p d = true.

(** [digits] is what [kw(c+)] captures in [text]: the longest run of the
    class after the leftmost [kw] that a character of the class follows. *)
Definition leftmost_number (kw : str) (p : char → bool) (text digits : str) : Prop :=
  ∃ before after,
    text = before ++ kw ++ digits ++ after ∧
    digits ≠ [] ∧ Forall (λ c, p c = true) digits ∧
    match after with c :: _ => p c = false | [] => True end ∧
    ∀ before' d after', text = before' ++ kw ++ d :: after' → p d = true →
      (length before ≤ length before')%nat.

(** The ways to ask for a letter: "contain", "containing" or "contains",
    then "letter " or "the letter ". *)
Definition letter_phrases : list str :=
  verb ← [py "contain"; py "containing"; py "contains"];
  article ← [py " "; py " the "];
  [verb ++ article ++ py "letter "].

(** [text] starts with one of the phrases and the letter [x]. *)
Definition letter_at (text : str) (x : char) : Prop :=
  ∃ phrase after,
    phrase ∈ letter_phrases ∧ text = phrase ++ x :: after ∧
    (97 <=? x) && (x <=? 122) = true.

(** [x] is the letter asked for at the leftmost place of [text] where one
    is asked for. *)
Definition leftmost_letter (text : str) (x : char) : Prop :=
  ∃ before suffix,
    text = before ++ suffix ∧ letter_at suffix x ∧
    ∀ before' suffix' x', text = before' ++ suffix' → letter_at suffix' x' →
      (length before ≤ length before')%nat.

(** Evaluates a goal about ASCII text under arbitrary tables, which agree
    with the ASCII ones there. *)
Ltac ascii_compute tables :=
  let Hl := fresh in let Hs := fresh in let Hd := fresh in
  destruct tables as [? ? ? Hl Hs Hd]; cbn [lower isspace decimal];
  repeat first
    [ rewrite Hl by reflexivity
    | rewrite Hs by reflexivity
    | rewrite Hd by reflexivity
    | progress vm_compute ].

(** * Properties *)

(** ** Checks of the model against known values *)

Example sha256_constants :
  SHA256.K !! 0%nat = Some 0x428a2f98 ∧ SHA256.K !! 63%nat = Some 0xc67178f2 ∧
  SHA256.H0 !! 0%nat = Some 0x6a09e667 ∧ SHA256.H0 !! 7%nat = Some 0x5be0cd19.
Proof. vm_compute. done. Qed.

Example sha256_empty :
  compute_sha256 (py "") =
  Some (py "e3b0c44298fc1c149afbf4c8996fb92427ae41e4649b934ca495991b7852b855").
Proof. vm_compute. reflexivity. Qed.

Example sha256_abc :
  compute_sha256 (py "abc") =
  Some (py "ba7816bf8f01cfea414140de5dae2223b00361a396177a9cb410ff61f20015ad").
Proof. vm_compute. reflexivity. Qed.

(** U+00E9 is two bytes of UTF-8. *)
Example sha256_e_acute :
  compute_sha256 [0xE9] =
  Some (py "4a99557e4033c3539de2eb65472017cad5f9557f7a0625a09f1c3f6e2ba69c4c").
Proof. vm_compute. reflexivity. Qed.

(** Twenty U+1F600 and fifty "a": 130 bytes, three blocks. *)
Example sha256_three_blocks :
  compute_sha256 (replicate 20 0x1F600 ++ replicate 50 97) =
  Some (py "509f4b23b789c420e8d2fb8c832e3a3cf66e77e74af86d0cf259941d148a51b6").
Proof. vm_compute. reflexivity. Qed.

(** Messages of 55, 56 and 64 bytes: the padding fits the last block, or
    needs one more. *)
Example sha256_padding :
  compute_sha256 (replicate 55 97) =
    Some (py "9f4390f8d30c2dd92ec9f095b65e2b9ae9b0a925a5258e241c9f1e910f734318") ∧
  compute_sha256 (replicate 56 97) =
    Some (py "b35439a4ac6f0948b6d6f9e3c6af0f5f590ce20f1bde7090ef7970686ec6738a") ∧
  compute_sha256 (replicate 64 97) =
    Some (py "ffe054fe7ae0cb6dc65c3af9b61d5209f439851db43d0ba5997337df154668eb").
Proof. vm_compute. done. Qed.

Example sha256_surrogate : compute_sha256 [0xD800] = None.
Proof. reflexivity. Qed.

Example isoformat_clock_a : isoformat clock_a = py "2025-10-21T09:05:07.001234".
Proof. reflexivity. Qed.

Example isoformat_midnight :
  isoformat {| year := 2025; month := 1; day := 1;
               hour := 0; minute := 0; second := 0; microsecond := 0 |}
  = py "2025-01-01T00:00:00".
Proof. reflexivity. Qed.

(** FS (U+001C) separates words as blanks, tabs and newlines do. *)
Example split_samples :
  split (py "  hello   world foo ") = [py "hello"; py "world"; py "foo"] ∧
  split [97; 98; 28; 99; 100; 9; 101; 10; 102] = [py "ab"; py "cd"; py "e"; py "f"] ∧
  split (py "   ") = [].
Proof. vm_compute. done. Qed.

(** What [re.search] finds and captures on some phrases. *)
Example re_search_samples :
  re_search re_longer_than (py "strings longer than 10 characters") = Some (Some (py "10")) ∧
  re_search re_longer_than (py "longer than longer than 12") = Some (Some (py "12")) ∧
  re_search re_longer_than (py "longer than x longer than 7y") = Some (Some (py "7")) ∧
  re_search re_at_least (py "at least 007 and at least 9") = Some (Some (py "007")) ∧
  re_search re_shorter_than (py "shorter than 0") = Some (Some (py "0")) ∧
  re_search re_longer_than (py "shorter than 0") = None ∧
  re_search re_contains_letter (py "containing the letter a") = Some (Some (py "a")) ∧
  re_search re_contains_letter (py "contains letter zed and contain the letter q")
    = Some (Some (py "z")) ∧
  re_search re_contains_letter (py "containthe letter a") = None ∧
  re_search re_contains_letter (py "contain the the letter a") = None ∧
  re_search re_contains_letter (py "containings letter b") = None ∧
  re_search re_contains_letter (py "contain  letter c") = None ∧
  re_search re_contains_letter (py "contains the letter 9 containing letter d")
    = Some (Some (py "d")) ∧
  re_search re_contains_letter (py "containing the letter") = None ∧
  re_search re_contains_letter (py "xcontains the letter yz") = Some (Some (py "y")) ∧
  re_search re_contains_letter (py "") = None ∧
  int (py "007") = Some 7%Z.
Proof. vm_compute. done. Qed.

(** [int] at the default limit: 4300 digits are converted and 4301 are
    not, leading zeros counted. *)
Example int_samples :
  is_Some (int (replicate 4300 57)) ∧
  int (replicate 4301 57) = None ∧
  int (replicate 4300 48) = Some 0%Z ∧
  int (replicate 4301 48) = None.
Proof. vm_compute. eauto. Qed.

(** ** Text *)

Lemma strip_prefix_Some prefix text rest :
  strip_prefix prefix text = Some rest ↔ text = prefix ++ rest.
Proof.
  revert text. induction prefix as [|p prefix IH]; intros [|c text]; cbn.
  - split; congruence.
  - split; congruence.
  - split; [done|discriminate].
  - case_decide as Hpc.
    + subst. rewrite IH. split; congruence.
    + split; [done|]. intros [= ? _]. done.
Qed.

(** [needle in hay] holds exactly when [needle] is an infix of [hay]. *)
Lemma str_contains_true needle hay :
  str_contains needle hay = true ↔ ∃ before after, hay = before ++ needle ++ after.
Proof.
  induction hay as [|c hay IH]; cbn [str_contains].
  - destruct (strip_prefix needle []) as [rest|] eqn:Hstrip.
    + apply strip_prefix_Some in Hstrip. split; [|done]. intros _. by exists [], rest.
    + split; [done|]. intros (before & after & Heq).
      destruct before; [|done]. cbn in Heq.
      apply strip_prefix_Some in Heq. congruence.
  - destruct (strip_prefix needle (c :: hay)) as [rest|] eqn:Hstrip.
    + apply strip_prefix_Some in Hstrip. split; [|done]. intros _. by exists [], rest.
    + rewrite IH. split.
      * intros (before & after & ->). by exists (c :: before), after.
      * intros ([|c' before] & after & Heq).
        -- cbn in Heq. apply strip_prefix_Some in Heq. congruence.
        -- injection Heq as -> ->. by exists before, after.
Qed.

Lemma str_replace_space text : str_replace 32 [] text = without_spaces text.
Proof.
  unfold str_replace, without_spaces.
  induction text as [|c text IH]; [done|].
  rewrite filter_cons. cbn. rewrite IH.
  destruct (decide (c = 32)); destruct (decide (c ≠ 32)); done.
Qed.

(** ** Regular expressions *)

Lemma run_of_take p text : take (length (run_of p text)) text = run_of p text.
Proof.
  induction text as [|c text IH]; cbn; [done|].
  destruct (p c); cbn; [by rewrite IH|done].
Qed.

Lemma run_of_length p text : (length (run_of p text) ≤ length text)%nat.
Proof.
  induction text as [|c text IH]; cbn; [done|].
  destruct (p c); cbn; lia.
Qed.

Lemma run_of_Forall p text : Forall (λ c, p c = true) (run_of p text).
Proof.
  induction text as [|c text IH]; cbn; [done|].
  destruct (p c) eqn:Hc; by constructor.
Qed.

(** The run cannot be extended. *)
Lemma run_of_maximal p text :
  match drop (length (run_of p text)) text with
  | c :: _ => p c = false
  | [] => True
  end.
Proof.
  induction text as [|c text IH]; cbn; [done|].
  destruct (p c) eqn:Hc; cbn; done.
Qed.

(** When the rest of the pattern accepts anything, [c+] takes the whole
    run. *)
Lemma match_plus_run {R} p text (k : str → option R) :
  (∀ rest, is_Some (k rest)) →
  match_plus p text k =
  match run_of p text with
  | [] => None
  | _ => k (drop (length (run_of p text)) text)
  end.
Proof.
  intros Hk. induction text as [|c text IH]; cbn; [done|].
  destruct (p c); [|done]. rewrite IH. cbn.
  destruct (run_of p text) as [|d digits] eqn:Hrun; [done|].
  by destruct (Hk (drop (length (d :: digits)) text)) as [m ->].
Qed.

Lemma match_at_number kw p text :
  match_at (Seq (Lit kw) (Group (Plus p))) text None (λ _ g, Some g) =
  Some <$> number_after kw p text.
Proof.
  unfold number_after. cbn.
  destruct (strip_prefix kw text) as [rest|]; cbn; [|done].
  rewrite match_plus_run by eauto.
  destruct (run_of p rest) as [|d digits] eqn:Hrun; [done|].
  rewrite length_drop, <-Hrun.
  replace (length rest - (length rest - length (run_of p rest)))%nat
    with (length (run_of p rest)) by (pose proof (run_of_length p rest); lia).
  by rewrite run_of_take.
Qed.

(** [re.search] for [kw(c+)] finds the leftmost place where [kw] is
    followed by a character of the class, and captures the whole run. *)
Lemma re_search_number kw p text :
  re_search (Seq (Lit kw) (Group (Plus p))) text =
  Some <$> first_from (number_after kw p) text.
Proof.
  induction text as [|c text IH]; cbn [re_search first_from];
    rewrite match_at_number; destruct (number_after kw p _); done.
Qed.

Lemma number_after_Some kw p text digits :
  number_after kw p text = Some digits ↔
  ∃ after, text = kw ++ digits ++ after ∧ digits ≠ [] ∧
    Forall (λ c, p c = true) digits ∧
    match after with c :: _ => p c = false | [] => True end.
Proof.
  unfold number_after. split.
  - destruct (strip_prefix kw text) as [rest|] eqn:Hrest; cbn; [|done].
    apply strip_prefix_Some in Hrest as ->.
    pose proof (run_of_take p rest) as Htake.
    pose proof (run_of_Forall p rest) as Hall.
    pose proof (run_of_maximal p rest) as Hmax.
    destruct (run_of p rest) as [|d ds] eqn:Hrun; [done|]. intros [= <-].
    exists (drop (length (d :: ds)) rest).
    split; [|done]. by rewrite <-Htake at 1; rewrite take_drop.
  - intros (after & -> & Hne & Hall & Hmax).
    assert (strip_prefix kw (kw ++ digits ++ after) = Some (digits ++ after)) as ->
      by by apply strip_prefix_Some.
    cbn. assert (run_of p (digits ++ after) = digits) as ->; [|by destruct digits].
    clear Hne. induction Hall as [|d digits Hd _ IH]; cbn.
    + destruct after as [|c after]; [done|]. cbn. by rewrite Hmax.
    + by rewrite Hd, IH.
Qed.

(** Whatever [match_at] returns, the rest of the pattern returned. *)
Lemma match_plus_result {R} p text (k : str → option R) m :
  match_plus p text k = Some m → ∃ rest, k rest = Some m.
Proof.
  induction text as [|c text IH]; cbn; [done|].
  destruct (p c); [|done].
  destruct (match_plus p text k) as [m'|] eqn:Hmore; [intros [= ->]|]; eauto.
Qed.

Lemma match_at_result {R} r text g (k : str → option str → option R) m :
  match_at r text g k = Some m → ∃ rest g', k rest g' = Some m.
Proof.
  revert text g k. induction r as [s|p|r1 IH1 r2 IH2|r1 IH1 r2 IH2|r IH|p|r IH];
    intros text g k; cbn.
  - destruct (strip_prefix s text); [eauto|done].
  - destruct text as [|c rest]; [done|]. destruct (p c); [eauto|done].
  - intros (rest & g' & Hm)%IH1. eauto.
  - destruct (match_at r1 text g k) as [m'|] eqn:Hleft; [intros [= ->]|]; eauto.
  - destruct (match_at r text g k) as [m'|] eqn:Hleft; [intros [= ->]|]; eauto.
  - intros (rest & Hm)%match_plus_result. eauto.
  - intros (rest & g' & Hm)%IH. eauto.
Qed.

Lemma match_at_Seq_result {R} r1 r2 text g (k : str → option str → option R) m :
  match_at (Seq r1 r2) text g k = Some m → ∃ rest g', match_at r2 rest g' k = Some m.
Proof. apply (match_at_result r1). Qed.

Lemma first_from_Some {A} (f : str → option A) text a :
  first_from f text = Some a → ∃ suffix, f suffix = Some a.
Proof.
  induction text as [|c text IH]; cbn.
  - destruct (f []) eqn:Hf; [intros [= ->]; eauto|done].
  - destruct (f (c :: text)) eqn:Hf; [intros [= ->]; eauto|done].
Qed.

Lemma re_search_first_from r text :
  re_search r text = first_from (λ suffix, match_at r suffix None (λ _ g, Some g)) text.
Proof. induction text as [|c text IH]; cbn; by rewrite ?IH. Qed.

Section RegexOfTheQueries.
Context `{tables : UnicodeData} `{limit : IntMaxStrDigits}.

(** A match of the letter pattern captures one letter from a to z. *)
Lemma re_search_contains_letter text m :
  re_search re_contains_letter text = Some m →
  ∃ c, m = Some [c] ∧ is_a_to_z c = true.
Proof.
  rewrite re_search_first_from. intros (suffix & Hm)%first_from_Some.
  unfold re_contains_letter in Hm.
  do 5 apply match_at_Seq_result in Hm as (? & ? & Hm).
  cbn [match_at] in Hm.
  match type of Hm with match ?t with _ => _ end = _ => destruct t as [|c rest] end; [done|].
  destruct (is_a_to_z c) eqn:Hc; [|done]. injection Hm as <-.
  exists c. split; [|done].
  by assert (S (length rest) - length rest = 1)%nat as -> by lia.
Qed.

(** A match of a number pattern captures a non-empty run of digits. *)
Lemma re_search_digits kw text m :
  re_search (Seq (Lit kw) (Group (Plus is_digit))) text = Some m →
  ∃ digits, m = Some digits ∧ digits ≠ [] ∧ Forall (λ c, is_Some (decimal c)) digits.
Proof.
  rewrite re_search_number.
  destruct (first_from _ text) as [digits|] eqn:Hfirst; [|done]. intros [= <-].
  apply first_from_Some in Hfirst as (suffix & Hnum).
  apply number_after_Some in Hnum as (after & _ & Hne & Hall & _).
  exists digits. split; [done|]. split; [done|].
  eapply Forall_impl; [exact Hall|]. intros c Hc. by apply bool_decide_eq_true in Hc.
Qed.

End RegexOfTheQueries.

(** ** Analyzer *)

Section AnalyzerProperties.
Context `{tables : UnicodeData} `{limit : IntMaxStrDigits}.

Lemma is_palindrome_true text :
  is_palindrome text = true ↔
  without_spaces (lower text) = reverse (without_spaces (lower text)).
Proof.
  unfold is_palindrome. rewrite str_replace_space.
  cbv zeta. rewrite bool_decide_eq_true. done.
Qed.

Lemma utf8_char_is_Some c : is_scalar_value c = true → is_Some (utf8_char c).
Proof.
  unfold is_scalar_value, utf8_char. intros Hc.
  repeat case_match; try done; exfalso;
    repeat match goal with
    | Hb : (_ <? _) = _ |- _ => first [apply N.ltb_lt in Hb | apply N.ltb_ge in Hb]
    | Hb : (_ <=? _) = _ |- _ => first [apply N.leb_le in Hb | apply N.leb_gt in Hb]
    | Hb : _ && _ = true |- _ => apply andb_true_iff in Hb as [? ?]
    | Hb : _ && _ = false |- _ => apply andb_false_iff in Hb as [?|?]
    | Hb : _ || _ = true |- _ => apply orb_true_iff in Hb as [?|?]
    end; lia.
Qed.

Lemma compute_sha256_is_Some text :
  forallb is_scalar_value text = true → is_Some (compute_sha256 text).
Proof.
  intros Htext. unfold compute_sha256, encode.
  rewrite !fmap_is_Some. apply mapM_is_Some, Forall_forall.
  intros c Hc. apply utf8_char_is_Some.
  rewrite forallb_forall in Htext. by apply Htext, list_elem_of_In.
Qed.

Lemma analyze_string_Some now text r :
  analyze_string now text = Some r ↔
  ∃ sha256_hash, compute_sha256 text = Some sha256_hash ∧
    r = {| r_id := sha256_hash;
           r_value := text;
           r_properties := {|
             p_length := Z.of_nat (length text);
             p_is_palindrome := is_palindrome text;
             p_unique_characters := count_unique_characters text;
             p_word_count := count_words text;
             p_sha256_hash := sha256_hash;
             p_character_frequency_map := get_character_frequency text |};
           r_created_at := isoformat now ++ py "Z" |}.
Proof.
  unfold analyze_string. destruct (compute_sha256 text) as [h|]; cbn.
  - split; [intros [= <-]; eauto | intros (? & [= <-] & ->); done].
  - split; [done | intros (? & [=] & _)].
Qed.

(** [analyze_string] has no failure mode on valid text. *)
Lemma analyze_string_total now text :
  forallb is_scalar_value text = true → is_Some (analyze_string now text).
Proof.
  intros [h Hh]%compute_sha256_is_Some.
  unfold analyze_string. rewrite Hh. cbn. eauto.
Qed.

Lemma sum_values_insert counts c n :
  counts !! c = None → sum_values (<[c:=n]> counts) = (n + sum_values counts)%Z.
Proof. intros Hc. unfold sum_values. rewrite map_fold_insert_L; [done| |done]. intros. lia. Qed.

Lemma sum_values_count counts c :
  sum_values (<[c:=(default 0 (counts !! c) + 1)%Z]> counts) = (sum_values counts + 1)%Z.
Proof.
  destruct (counts !! c) as [n|] eqn:Hc; cbn.
  - rewrite <-insert_delete_eq, sum_values_insert by apply lookup_delete_eq.
    rewrite <-(insert_delete_id counts c n) at 2 by done.
    rewrite sum_values_insert by apply lookup_delete_eq. lia.
  - rewrite sum_values_insert by done. lia.
Qed.

Lemma Counter_from counts text :
  let counts' :=
    foldl (λ counts c, <[c := (default 0 (counts !! c) + 1)%Z]> counts) counts text in
  sum_values counts' = (sum_values counts + Z.of_nat (length text))%Z ∧
  dom counts' = dom counts ∪ list_to_set text.
Proof.
  revert counts. induction text as [|c text IH]; intros counts; cbn.
  - split; [lia | by rewrite (right_id_L ∅ (∪))].
  - destruct (IH (<[c:=(default 0 (counts !! c) + 1)%Z]> counts)) as [-> ->].
    rewrite sum_values_count, dom_insert_L. split; [lia|].
    by rewrite (comm_L (∪) {[c]}), (assoc_L (∪)).
Qed.

Lemma Counter_sum text : sum_values (Counter text) = Z.of_nat (length text).
Proof.
  unfold Counter. destruct (Counter_from ∅ text) as [-> _].
  unfold sum_values. by rewrite map_fold_empty.
Qed.

Lemma Counter_dom text : dom (Counter text) = list_to_set text.
Proof.
  unfold Counter. destruct (Counter_from ∅ text) as [_ ->].
  by rewrite dom_empty_L, (left_id_L ∅ (∪)).
Qed.

(** A character is a key exactly when it occurs. *)
Lemma Counter_keys text c : is_Some (Counter text !! c) ↔ c ∈ text.
Proof. by rewrite <-elem_of_dom, Counter_dom, elem_of_list_to_set. Qed.

(** C5.  [analyze(s).is_palindrome] is true exactly when [s], case-folded
    and with its space characters (and nothing else) removed, equals its
    own reverse.  "racecar", "noon" and "Noon" are palindromes and
    "hello world" is not; a comma or a tab is not removed, so "ab, a" and
    "ab<TAB>a" are not palindromes either. *)
Theorem is_palindrome_folds_case_and_drops_spaces :
  (∀ s, is_palindrome s = true ↔
        without_spaces (lower s) = reverse (without_spaces (lower s))) ∧
  (∀ now s r, analyze_string now s = Some r →
        p_is_palindrome (r_properties r) = is_palindrome s) ∧
  (∀ now, p_is_palindrome ∘ r_properties <$> analyze_string now (py "racecar") = Some true) ∧
  (∀ now, p_is_palindrome ∘ r_properties <$> analyze_string now (py "hello world") = Some false) ∧
  (∀ now, p_is_palindrome ∘ r_properties <$> analyze_string now (py "noon") = Some true) ∧
  (∀ now, p_is_palindrome ∘ r_properties <$> analyze_string now (py "Noon") = Some true) ∧
  (∀ now, p_is_palindrome ∘ r_properties <$> analyze_string now (py "ab, a") = Some false) ∧
  (∀ now, p_is_palindrome ∘ r_properties <$> analyze_string now [97; 98; 9; 97] = Some false).
Proof.
  split; [exact is_palindrome_true|].
  split; [by intros now s r (h & _ & ->)%analyze_string_Some|].
  unfold analyze_string, is_palindrome.
  repeat split; intros now; ascii_compute tables; reflexivity.
Qed.

(** C8.  [analyze("")] succeeds, with length 0, [is_palindrome] true, no
    unique character, no word and an empty frequency map. *)
Theorem analyze_empty_string now :
  analyze_string now [] = Some {|
    r_id := py "e3b0c44298fc1c149afbf4c8996fb92427ae41e4649b934ca495991b7852b855";
    r_value := [];
    r_properties := {|
      p_length := 0;
      p_is_palindrome := true;
      p_unique_characters := 0;
      p_word_count := 0;
      p_sha256_hash := py "e3b0c44298fc1c149afbf4c8996fb92427ae41e4649b934ca495991b7852b855";
      p_character_frequency_map := ∅ |};
    r_created_at := isoformat now ++ py "Z" |}.
Proof.
  apply analyze_string_Some. eexists. split; [exact sha256_empty|].
  unfold is_palindrome. rewrite (lower_ascii []) by reflexivity. reflexivity.
Qed.

(** C3, as amended.  The identity, the value and every derived property
    of [analyze(s)] are functions of [s] alone: two calls on equal strings
    agree on them (and fail together on text that cannot be encoded).  The
    records differ at most in [created_at], which is the clock reading of
    the call. *)
Theorem analyze_deterministic_but_for_created_at now1 now2 s s2 :
  s = s2 →
  r_id <$> analyze_string now1 s = r_id <$> analyze_string now2 s2 ∧
  r_value <$> analyze_string now1 s = r_value <$> analyze_string now2 s2 ∧
  r_properties <$> analyze_string now1 s = r_properties <$> analyze_string now2 s2 ∧
  r_created_at <$> analyze_string now1 s =
    (λ _, isoformat now1 ++ py "Z") <$> compute_sha256 s ∧
  (isoformat now1 = isoformat now2 → analyze_string now1 s = analyze_string now2 s2).
Proof.
  intros <-. unfold analyze_string.
  destruct (compute_sha256 s) as [h|]; [|done].
  repeat split; try reflexivity. by intros ->.
Qed.

End AnalyzerProperties.

Lemma analyze_deterministic_but_for_created_at_witness :
  r_id <$> analyze_string clock_a (py "noon") = r_id <$> analyze_string clock_b (py "noon") ∧
  r_value <$> analyze_string clock_a (py "noon") = r_value <$> analyze_string clock_b (py "noon") ∧
  r_properties <$> analyze_string clock_a (py "noon") =
    r_properties <$> analyze_string clock_b (py "noon") ∧
  r_created_at <$> analyze_string clock_a (py "noon") =
    (λ _, isoformat clock_a ++ py "Z") <$> compute_sha256 (py "noon") ∧
  (isoformat clock_a = isoformat clock_b →
   analyze_string clock_a (py "noon") = analyze_string clock_b (py "noon")).
Proof.
  exact (analyze_deterministic_but_for_created_at clock_a clock_b (py "noon") (py "noon") eq_refl).
Defined.

(** C3, as stated, fails: two calls on "noon" a microsecond apart return
    records that differ in [created_at]. *)
Lemma analyze_twice_differs :
  analyze_string clock_a (py "noon") ≠ analyze_string clock_b (py "noon").
Proof.
  intros Heq. apply (f_equal (fmap r_created_at)) in Heq.
  vm_compute in Heq. discriminate Heq.
Qed.

(** ** Filter engine *)

Section FilterEngineProperties.
Context `{tables : UnicodeData} `{limit : IntMaxStrDigits}.

Lemma filter_True {A} (l : list A) : filter (λ _, True) l = l.
Proof. induction l as [|x l IH]; [done|]. by rewrite filter_cons_True, IH. Qed.

Lemma filter_none {A} (P : A → Prop) `{!∀ x, Decision (P x)} (l : list A) :
  (∀ x, x ∈ l → ¬ P x) → filter P l = [].
Proof.
  induction l as [|x l IH]; intros HP; [done|].
  rewrite filter_cons_False by (apply HP; left).
  apply IH. intros y Hy. apply HP. by right.
Qed.

(** One step of [apply_filters]: [if key in filters: filtered = [...]]. *)
Lemma filter_when_present {A B} (key : option A) (P : A → B → Prop)
    `{!∀ v x, Decision (P v x)} (l : list B) :
  match key with Some v => filter (P v) l | None => l end =
  filter (λ x, key_holds key (λ v, P v x)) l.
Proof.
  destruct key as [v|].
  - apply list_filter_iff. intros x. split; [by intros ? ? [= <-]|by intros Hk; apply Hk].
  - rewrite <-(filter_True l) at 1. apply list_filter_iff. intros x. split; [by intros _ ? [=]|done].
Qed.

Lemma apply_filters_filter records f :
  apply_filters records f = filter (satisfies f) records.
Proof.
  unfold apply_filters. cbv zeta.
  rewrite (filter_when_present (f_contains_character f)
             (λ c s, str_contains c (lower (r_value s)) = true)).
  rewrite (filter_when_present (f_word_count f) (λ v s, p_word_count (r_properties s) = v)).
  rewrite (filter_when_present (f_max_length f) (λ v s, (p_length (r_properties s) <= v)%Z)).
  rewrite (filter_when_present (f_min_length f) (λ v s, (p_length (r_properties s) >= v)%Z)).
  rewrite (filter_when_present (f_is_palindrome f) (λ v s, p_is_palindrome (r_properties s) = v)).
  rewrite !list_filter_filter. apply list_filter_iff.
  intros s. unfold satisfies, satisfies_with, in_lowered. tauto.
Qed.

Lemma satisfies_spec_lowercase f s :
  key_holds (f_contains_character f) (λ c, lower c = c) →
  satisfies f s ↔ satisfies_spec f s.
Proof.
  intros Hlow. unfold satisfies, satisfies_spec, satisfies_with, in_lowered, in_ignoring_case.
  assert (key_holds (f_contains_character f) (λ c, str_contains c (lower (r_value s)) = true) ↔
          key_holds (f_contains_character f)
            (λ c, str_contains (lower c) (lower (r_value s)) = true)) as Hiff.
  { split; intros Hk c Hc; specialize (Hk c Hc); cbv beta in *;
      [rewrite (Hlow c Hc) | rewrite (Hlow c Hc) in Hk]; done. }
  tauto.
Qed.

(** C2, as amended.  [apply_filters] keeps exactly the records that
    satisfy every key present in the filter set, in their input order,
    where [contains_character] asks that the character, as given, occurs
    in the lower-cased value.  That is case-insensitive membership
    whenever the given character is lower-case.  An absent key constrains
    nothing, and zero matches is the empty list. *)
Theorem apply_filters_is_ordered_conjunction records f :
  apply_filters records f = filter (satisfies f) records ∧
  apply_filters records f `sublist_of` records ∧
  (∀ s, s ∈ apply_filters records f ↔ s ∈ records ∧ satisfies f s) ∧
  (key_holds (f_contains_character f) (λ c, lower c = c) →
   apply_filters records f = filter (satisfies_spec f) records) ∧
  apply_filters records no_filters = records.
Proof.
  rewrite !apply_filters_filter.
  split; [done|]. split; [apply sublist_filter|].
  split; [intros s; rewrite list_elem_of_filter; tauto|].
  split.
  - intros Hlow. apply list_filter_iff. intros s. by apply satisfies_spec_lowercase.
  - rewrite <-(filter_True records) at 2. apply list_filter_iff.
    intros s. split; [done|]. intros _. by repeat split; intros ? [=].
Qed.

End FilterEngineProperties.

(** C2, as stated, fails: "Apple" contains the character "A" whatever the
    case, yet the filter set asking for "A" rejects it, because "A" is
    looked up in "apple". *)
Lemma apply_filters_uppercase_character :
  ∃ apple, analyze_string clock_a (py "Apple") = Some apple ∧
    in_ignoring_case (py "A") (r_value apple) ∧
    satisfies_spec (contains_only (py "A")) apple ∧
    apply_filters [apple] (contains_only (py "A")) = [] ∧
    apply_filters [apple] (contains_only (py "A")) ≠
      filter (satisfies_spec (contains_only (py "A"))) [apple].
Proof.
  eexists. split; [vm_compute; reflexivity|].
  split; [vm_compute; reflexivity|].
  split; [apply (bool_decide_unpack _); vm_compute; exact I|].
  split; [vm_compute; reflexivity|].
  intros Heq. apply (f_equal length) in Heq. vm_compute in Heq. discriminate Heq.
Qed.

(** ** Query interpreter *)

Section InterpreterProperties.
Context `{tables : UnicodeData} `{limit : IntMaxStrDigits}.

(** [int] converts a run of digits unless it exceeds the limit. *)
Lemma int_Some digits :
  exceeds_limit digits = false → ∃ n, int digits = Some n ∧ (0 ≤ n)%Z.
Proof. intros Hok. unfold int. rewrite Hok. eexists. split; [done|lia]. Qed.

Lemma int_None digits : int digits = None ↔ exceeds_limit digits = true.
Proof. unfold int. by destruct (exceeds_limit digits). Qed.

(** A run of up to 640 digits is converted whatever the limit. *)
Lemma exceeds_limit_short digits :
  (length digits ≤ 640)%nat → exceeds_limit digits = false.
Proof.
  intros Hlen. unfold exceeds_limit. cbv zeta.
  destruct (N.ltb_spec 640 (N.of_nat (length digits))); [lia|done].
Qed.

(** The parser raises exactly when it converts a number that exceeds the
    limit. *)
Lemma parse_None query :
  parse_natural_language_query query = None ↔ raises_ValueError query = true.
Proof.
  unfold parse_natural_language_query, raises_ValueError, number_exceeds_limit, int.
  cbv zeta.
  destruct (re_search re_longer_than (lower query)) as [longer|];
    [destruct (exceeds_limit (group1 longer))|];
    (destruct (re_search re_shorter_than (lower query)) as [shorter|];
       [destruct (exceeds_limit (group1 shorter))|]);
    (destruct (re_search re_at_least (lower query)) as [least|];
       [destruct (exceeds_limit (group1 least))|]); cbn; done.
Qed.

Lemma parse_Some query :
  is_Some (parse_natural_language_query query) ↔ raises_ValueError query = false.
Proof.
  rewrite <-not_eq_None_Some, parse_None. by destruct (raises_ValueError query).
Qed.

(** The value each key ends with when the parser returns, pattern by
    pattern. *)
Lemma parse_is_palindrome query filters :
  parse_natural_language_query query = Some filters →
  f_is_palindrome filters =
  if str_contains (py "palindrom") (lower query) then Some true else None.
Proof.
  unfold parse_natural_language_query. cbv zeta. intros Hparse.
  repeat (case_match; simplify_option_eq); reflexivity.
Qed.

Lemma parse_word_count query filters :
  parse_natural_language_query query = Some filters →
  f_word_count filters =
  if str_contains (py "single word") (lower query)
     || str_contains (py "one word") (lower query) then Some 1%Z
  else if str_contains (py "two word") (lower query) then Some 2%Z
  else if str_contains (py "three word") (lower query) then Some 3%Z
  else None.
Proof.
  unfold parse_natural_language_query. cbv zeta. intros Hparse.
  repeat (case_match; simplify_option_eq); reflexivity.
Qed.

Lemma parse_min_length query filters :
  parse_natural_language_query query = Some filters →
  match re_search re_at_least (lower query) with
  | Some m => ∃ n, int (group1 m) = Some n ∧ f_min_length filters = Some n
  | None =>
      match re_search re_longer_than (lower query) with
      | Some m => ∃ n, int (group1 m) = Some n ∧ f_min_length filters = Some (n + 1)%Z
      | None => f_min_length filters = None
      end
  end.
Proof.
  unfold parse_natural_language_query. cbv zeta. intros Hparse.
  repeat (case_match; simplify_option_eq); eauto.
Qed.

Lemma parse_max_length query filters :
  parse_natural_language_query query = Some filters →
  match re_search re_shorter_than (lower query) with
  | Some m => ∃ n, int (group1 m) = Some n ∧ f_max_length filters = Some (n - 1)%Z
  | None => f_max_length filters = None
  end.
Proof.
  unfold parse_natural_language_query. cbv zeta. intros Hparse.
  repeat (case_match; simplify_option_eq); eauto.
Qed.

Lemma parse_contains_character query filters :
  parse_natural_language_query query = Some filters →
  f_contains_character filters =
  if str_contains (py "first vowel") (lower query) then Some (py "a")
  else
    match re_search re_contains_letter (lower query) with
    | Some m => Some (group1 m)
    | None => None
    end.
Proof.
  unfold parse_natural_language_query. cbv zeta. intros Hparse.
  repeat (case_match; simplify_option_eq); reflexivity.
Qed.

(** C4, as amended.  When "longer than N" matches the phrase and none of
    the numbers the parser converts exceeds the limit of [int], the
    parser returns a filter set, whose [min_length] is N + 1 unless
    "at least M" matches too, and then it is M: "at least" is applied
    later and overwrites what "longer than" assigned.  When one of the
    numbers exceeds the limit, the parser raises [ValueError] and there
    is no filter set. *)
Theorem at_least_overwrites_longer_than query longer :
  re_search re_longer_than (lower query) = Some longer →
  (raises_ValueError query = false →
   ∃ filters, parse_natural_language_query query = Some filters ∧
     (re_search re_at_least (lower query) = None →
      ∃ n, int (group1 longer) = Some n ∧ f_min_length filters = Some (n + 1)%Z) ∧
     (∀ least, re_search re_at_least (lower query) = Some least →
      ∃ m, int (group1 least) = Some m ∧ f_min_length filters = Some m)) ∧
  (raises_ValueError query = true → parse_natural_language_query query = None).
Proof.
  intros Hlonger. split; [|apply parse_None].
  intros [filters Hparse]%parse_Some. exists filters. split; [done|].
  pose proof (parse_min_length query filters Hparse) as Hmin. rewrite Hlonger in Hmin.
  split.
  - intros Hleast. by rewrite Hleast in Hmin.
  - intros least Hleast. by rewrite Hleast in Hmin.
Qed.

(** The character the parser asks for is lower-case, so on its filter
    sets the test of [apply_filters] is case-insensitive membership. *)
Lemma parse_contains_lowercase query filters :
  parse_natural_language_query query = Some filters →
  key_holds (f_contains_character filters) (λ c, lower c = c).
Proof.
  intros Hparse c. rewrite (parse_contains_character query filters Hparse).
  destruct (str_contains (py "first vowel") (lower query)).
  - intros [= <-]. by rewrite lower_ascii.
  - destruct (re_search re_contains_letter (lower query)) as [m|] eqn:Hm; [|done].
    apply re_search_contains_letter in Hm as (a & -> & Ha). intros [= <-]. cbn.
    unfold is_a_to_z in Ha. apply andb_true_iff in Ha as [Hlo%N.leb_le Hhi%N.leb_le].
    rewrite lower_ascii.
    + cbn. unfold ascii_lower.
      replace (a <=? 90) with false by (symmetry; apply N.leb_gt; lia).
      by rewrite andb_false_r.
    + cbn. unfold is_ascii. rewrite andb_true_r. apply N.ltb_lt. lia.
Qed.

Lemma filters_empty_fields f :
  filters_empty f = true ↔
  f_is_palindrome f = None ∧ f_min_length f = None ∧ f_max_length f = None ∧
  f_word_count f = None ∧ f_contains_character f = None.
Proof.
  destruct f as [[?|] [?|] [?|] [?|] [?|]]; cbn; split; try done;
    intros (? & ? & ? & ? & ?); done.
Qed.

(** A phrase on which the parser raises has a number in it, so it is
    recognised. *)
Lemma raises_ValueError_recognized query :
  raises_ValueError query = true → recognized query = true.
Proof.
  unfold raises_ValueError, number_exceeds_limit, recognized. cbv zeta.
  destruct (re_search re_longer_than (lower query));
    destruct (re_search re_shorter_than (lower query));
    destruct (re_search re_at_least (lower query)); cbn;
    rewrite ?orb_true_r; done.
Qed.

(** The parser returns the empty filter set exactly when no pattern
    matches. *)
Lemma filters_empty_not_recognized query :
  (∃ filters, parse_natural_language_query query = Some filters ∧
     filters_empty filters = true) ↔ recognized query = false.
Proof.
  split.
  - intros (filters & Hparse & Hempty).
    apply filters_empty_fields in Hempty as (Hpal & Hmin & Hmax & Hwords & Hchar).
    rewrite (parse_is_palindrome query filters Hparse) in Hpal.
    rewrite (parse_word_count query filters Hparse) in Hwords.
    rewrite (parse_contains_character query filters Hparse) in Hchar.
    pose proof (parse_min_length query filters Hparse) as Hmin'.
    pose proof (parse_max_length query filters Hparse) as Hmax'.
    unfold recognized. cbv zeta.
    destruct (str_contains (py "palindrom") (lower query)); [done|].
    destruct (str_contains (py "single word") (lower query)); [done|].
    destruct (str_contains (py "one word") (lower query)); [done|].
    destruct (str_contains (py "two word") (lower query)); [done|].
    destruct (str_contains (py "three word") (lower query)); [done|].
    destruct (str_contains (py "first vowel") (lower query)); [done|].
    destruct (re_search re_at_least (lower query));
      [destruct Hmin' as (? & _ & ?); congruence|].
    destruct (re_search re_longer_than (lower query));
      [destruct Hmin' as (? & _ & ?); congruence|].
    destruct (re_search re_shorter_than (lower query));
      [destruct Hmax' as (? & _ & ?); congruence|].
    by destruct (re_search re_contains_letter (lower query)).
  - intros Hrec.
    destruct (parse_natural_language_query query) as [filters|] eqn:Hparse.
    + exists filters. split; [done|]. apply filters_empty_fields.
      rewrite (parse_is_palindrome query filters Hparse),
        (parse_word_count query filters Hparse),
        (parse_contains_character query filters Hparse).
      pose proof (parse_min_length query filters Hparse) as Hmin.
      pose proof (parse_max_length query filters Hparse) as Hmax.
      unfold recognized in Hrec. cbv zeta in Hrec.
      destruct (str_contains (py "palindrom") (lower query)); [done|].
      destruct (str_contains (py "single word") (lower query)); [done|].
      destruct (str_contains (py "one word") (lower query)); [done|].
      destruct (str_contains (py "two word") (lower query)); [done|].
      destruct (str_contains (py "three word") (lower query)); [done|].
      destruct (re_search re_longer_than (lower query)); [done|].
      destruct (re_search re_shorter_than (lower query)); [done|].
      destruct (re_search re_at_least (lower query)); [done|].
      destruct (re_search re_contains_letter (lower query)); [done|].
      by destruct (str_contains (py "first vowel") (lower query)).
    + apply parse_None, raises_ValueError_recognized in Hparse. congruence.
Qed.

(** What the natural-language endpoint returns when it returns: the
    records of the store that satisfy the parsed filters, the character
    being looked up whatever the case. *)
Lemma filter_by_natural_language_Returned query db response :
  (filter_by_natural_language query db).1 = Returned response →
  ∃ filters, parse_natural_language_query query = Some filters ∧
    nl_data response = filter (satisfies_spec filters) (dict_values db) ∧
    nl_count response = Z.of_nat (length (nl_data response)) ∧
    nl_interpreted_query response = {| original := query; parsed_filters := filters |}.
Proof.
  unfold filter_by_natural_language.
  destruct (parse_natural_language_query query) as [filters|] eqn:Hparse; [|done].
  destruct (filters_empty filters); [done|].
  cbn. intros [= <-]. exists filters. cbn. split; [done|]. split; [|done].
  rewrite apply_filters_filter. apply list_filter_iff. intros s.
  by eapply satisfies_spec_lowercase, parse_contains_lowercase.
Qed.

(** C6.  The natural-language endpoint fails with [Unparseable] exactly
    when the parser returns the empty filter set, which is exactly when
    no recognised pattern matches the phrase.  When one matches, it
    returns, whatever the number of matching records, unless a number in
    the phrase exceeds the limit of [int], and then it ends in the
    [ValueError] of the parser.  "gibberish xyz" is unparseable. *)
Theorem unparseable_iff_no_pattern query db :
  (filter_by_natural_language query db = (Unparseable, db) ↔
   ∃ filters, parse_natural_language_query query = Some filters ∧
     filters_empty filters = true) ∧
  (filter_by_natural_language query db = (Unparseable, db) ↔ recognized query = false) ∧
  (recognized query = true →
   if raises_ValueError query
   then filter_by_natural_language query db = (ValueError, db)
   else ∃ response, filter_by_natural_language query db = (Returned response, db)) ∧
  filter_by_natural_language (py "gibberish xyz") db = (Unparseable, db).
Proof.
  assert (filter_by_natural_language query db = (Unparseable, db) ↔
          ∃ filters, parse_natural_language_query query = Some filters ∧
            filters_empty filters = true) as Hempty.
  { unfold filter_by_natural_language.
    destruct (parse_natural_language_query query) as [filters|].
    - destruct (filters_empty filters) eqn:Hfilters.
      + split; [eauto|done].
      + split; [done|]. intros (? & [= <-] & ?). congruence.
    - split; [done|]. by intros (? & [=] & _). }
  split; [exact Hempty|]. split; [by rewrite Hempty, filters_empty_not_recognized|]. split.
  - intros Hrec. destruct (raises_ValueError query) eqn:Hraises.
    + apply parse_None in Hraises. unfold filter_by_natural_language. by rewrite Hraises.
    + apply parse_Some in Hraises as [filters Hparse].
      unfold filter_by_natural_language. rewrite Hparse.
      destruct (filters_empty filters) eqn:Hfilters; [|eauto].
      assert (recognized query = false); [|congruence].
      apply filters_empty_not_recognized. eauto.
  - unfold filter_by_natural_language, parse_natural_language_query.
    rewrite (lower_ascii (py "gibberish xyz")) by reflexivity. reflexivity.
Qed.

End InterpreterProperties.

Lemma at_least_overwrites_longer_than_witness :
  re_search re_longer_than (lower (py "longer than 10 and at least 5 characters"))
    = Some (Some (py "10")) ∧
  re_search re_at_least (lower (py "longer than 10 and at least 5 characters"))
    = Some (Some (py "5")) ∧
  ∃ filters,
    parse_natural_language_query (py "longer than 10 and at least 5 characters")
      = Some filters ∧
    f_min_length filters = Some 5%Z.
Proof.
  assert (re_search re_longer_than (lower (py "longer than 10 and at least 5 characters"))
          = Some (Some (py "10"))) as Hlonger by (vm_compute; reflexivity).
  assert (re_search re_at_least (lower (py "longer than 10 and at least 5 characters"))
          = Some (Some (py "5"))) as Hleast by (vm_compute; reflexivity).
  split; [exact Hlonger|]. split; [exact Hleast|].
  destruct (at_least_overwrites_longer_than _ _ Hlonger) as [Hreturns _].
  destruct (Hreturns eq_refl) as (filters & Hparse & _ & Hmin).
  exists filters. split; [exact Hparse|].
  destruct (Hmin _ Hleast) as (m & Hm & ->). vm_compute in Hm. by injection Hm as <-.
Defined.

(** C4, as stated, fails: on [long_number_query] both patterns match,
    and yet no filter set results, with [min_length] 5 or any other:
    [int] refuses the 4301 digits after "longer than", the parser raises
    before it reaches "at least", and the endpoint ends in [ValueError]. *)
Lemma at_least_after_long_number_raises :
  re_search re_longer_than (lower long_number_query) = Some (Some (replicate 4301 49)) ∧
  re_search re_at_least (lower long_number_query) = Some (Some (py "5")) ∧
  parse_natural_language_query long_number_query = None ∧
  filter_by_natural_language long_number_query [] = (ValueError, []).
Proof. vm_compute. done. Qed.

(** ** Store *)

Section DictProperties.
Context {V : Type}.
Implicit Types (k : str) (v : V) (d : dict V).

Lemma dict_get_Some k v d : dict_get k d = Some v → (k, v) ∈ d.
Proof.
  induction d as [|[k' v'] d IH]; cbn; [done|].
  case_decide as Hk; [intros [= ->]; subst; left | right; auto].
Qed.

Lemma dict_get_None k d : dict_get k d = None ↔ k ∉ d.*1.
Proof.
  induction d as [|[k' v'] d IH]; cbn.
  - split; [intros _ Hin; inversion Hin|done].
  - rewrite not_elem_of_cons. case_decide as Hk; [subst; split; [done|tauto]|].
    rewrite IH. split; [done|tauto].
Qed.

Lemma dict_in_false k d : dict_in k d = false ↔ k ∉ d.*1.
Proof.
  unfold dict_in. rewrite bool_decide_eq_false, <-dict_get_None, eq_None_not_Some. done.
Qed.

Lemma dict_in_true k d : dict_in k d = true ↔ k ∈ d.*1.
Proof.
  destruct (dict_in k d) eqn:Hin.
  - split; [intros _|done]. destruct (decide (k ∈ d.*1)) as [|Hk]; [done|].
    apply dict_in_false in Hk. congruence.
  - apply dict_in_false in Hin. split; [done|tauto].
Qed.

(** With unique keys, the value under a key is the only one there. *)
Lemma dict_get_NoDup k v d : NoDup (d.*1) → (k, v) ∈ d → dict_get k d = Some v.
Proof.
  induction d as [|[k' v'] d IH]; [intros _ Hin; inversion Hin|].
  rewrite fmap_cons, NoDup_cons. cbn. intros [Hk' Hd] Hin.
  apply elem_of_cons in Hin as [[= -> ->]|Hin]; [by rewrite decide_True|].
  rewrite decide_False; [auto|].
  intros ->. apply Hk'. apply list_elem_of_fmap. by exists (k, v).
Qed.

(** A new key goes last. *)
Lemma dict_set_fresh k v d : k ∉ d.*1 → dict_set k v d = d ++ [(k, v)].
Proof.
  induction d as [|[k' v'] d IH]; cbn; [done|].
  rewrite not_elem_of_cons. intros [Hne Hk].
  rewrite decide_False by done. by rewrite IH.
Qed.

Lemma dict_get_del k d : dict_get k (dict_del k d) = None.
Proof.
  apply dict_get_None. unfold dict_del.
  intros ([k' v] & -> & [Hne _]%list_elem_of_filter)%list_elem_of_fmap. done.
Qed.

Lemma dict_del_elem_of k k' v d : (k', v) ∈ dict_del k d → (k', v) ∈ d.
Proof. unfold dict_del. by intros [_ ?]%list_elem_of_filter. Qed.

Lemma dict_del_NoDup k d : NoDup (d.*1) → NoDup ((dict_del k d).*1).
Proof.
  unfold dict_del. induction d as [|[k' v] d IH]; [done|].
  rewrite fmap_cons, NoDup_cons. intros [Hk' Hd]. rewrite filter_cons.
  case_decide; [|by auto]. rewrite fmap_cons, NoDup_cons. split; [|by auto].
  intros ([k2 v2] & Heq & [_ ?]%list_elem_of_filter)%list_elem_of_fmap.
  cbn in Heq. subst. apply Hk'. apply list_elem_of_fmap. by exists (k2, v2).
Qed.

End DictProperties.

Section StoreProperties.
Context `{tables : UnicodeData} `{limit : IntMaxStrDigits}.

Lemma create_string_Returned now string_input db record db' :
  create_string now string_input db = (Returned record, db') ↔
  compute_sha256 (value string_input) = Some (r_id record) ∧
  (r_id record ∉ db.*1) ∧
  analyze_string now (value string_input) = Some record ∧
  db' = db ++ [(r_id record, record)].
Proof.
  unfold create_string. split.
  - destruct (compute_sha256 (value string_input)) as [h|] eqn:Hh; [|done].
    destruct (dict_in h db) eqn:Hin; [done|].
    destruct (analyze_string now (value string_input)) as [r|] eqn:Hr; [|done].
    intros [= -> <-]. apply dict_in_false in Hin.
    apply analyze_string_Some in Hr as Hr'. destruct Hr' as (h' & Hh' & Hrec).
    assert (r_id record = h) as Hid by (rewrite Hrec; cbn; congruence).
    rewrite Hid. by rewrite dict_set_fresh.
  - intros (Hh & Hin & Hr & ->). rewrite Hh.
    apply dict_in_false in Hin. rewrite Hin, Hr. by rewrite dict_set_fresh by by apply dict_in_false.
Qed.

Lemma create_string_store_ok now string_input db out db' :
  store_ok db → create_string now string_input db = (out, db') → store_ok db'.
Proof.
  intros Hok Hcreate. destruct out as [record| | |].
  - apply create_string_Returned in Hcreate as (Hh & Hin & Hr & ->).
    destruct Hok as [Hnodup Hitems]. split.
    + rewrite fmap_app. apply NoDup_app. split; [done|]. split; [|apply NoDup_singleton].
      intros k Hk [->|[]%elem_of_nil]%elem_of_cons. done.
    + intros k r [Hold|[= -> ->]%list_elem_of_singleton]%elem_of_app; [by apply Hitems|].
      apply analyze_string_Some in Hr as Hr'. destruct Hr' as (h & _ & Hrec).
      split; [done|]. exists now. by rewrite Hrec in Hr |- *.
  - unfold create_string in Hcreate. repeat case_match; by simplify_eq.
  - unfold create_string in Hcreate. repeat case_match; by simplify_eq.
  - unfold create_string in Hcreate. repeat case_match; by simplify_eq.
Qed.

Lemma delete_string_store_ok string_value db out db' :
  store_ok db → delete_string string_value db = (out, db') → store_ok db'.
Proof.
  intros [Hnodup Hitems]. unfold delete_string.
  repeat case_match; intros [= <- <-]; try done.
  split; [by apply dict_del_NoDup|].
  intros k r Hin%dict_del_elem_of. by apply Hitems.
Qed.

Lemma reachable_store_ok db : reachable db → store_ok db.
Proof.
  induction 1 as [| |].
  - split; [constructor|]. intros k r Hin. inversion Hin.
  - eauto using create_string_store_ok.
  - eauto using delete_string_store_ok.
Qed.

Lemma dict_get_last k (record : StringResponse) db :
  k ∉ db.*1 → dict_get k (db ++ [(k, record)]) = Some record.
Proof.
  induction db as [|[k' r'] db IH]; cbn.
  - intros _. by rewrite decide_True.
  - rewrite not_elem_of_cons. intros [Hne Hk]. rewrite decide_False by done. auto.
Qed.

(** A stored record is filed under the hash of its value. *)
Lemma stored_record_key db k record :
  store_ok db → (k, record) ∈ db →
  compute_sha256 (r_value record) = Some k ∧ dict_get k db = Some record.
Proof.
  intros [Hnodup Hitems] Hin. destruct (Hitems k record Hin) as [<- [now Hrecord]].
  split; [|by apply dict_get_NoDup].
  apply analyze_string_Some in Hrecord as (h & Hh & Hrec).
  rewrite Hh. by rewrite Hrec.
Qed.

(** With unique keys, each the identity of its record, a stored record
    is the only one of its identity. *)
Lemma one_record_per_identity db k record :
  store_ok db → (k, record) ∈ db →
  filter (λ r, r_id r = k) (dict_values db) = [record].
Proof.
  intros [Hnodup Hitems]. unfold dict_values.
  induction db as [|[k' r'] db IH]; [intros Hin; inversion Hin|].
  rewrite fmap_cons, NoDup_cons in Hnodup. destruct Hnodup as [Hk' Hnodup].
  assert (∀ k r, (k, r) ∈ db → r_id r = k) as Hids.
  { intros k0 r0 Hin0. apply Hitems. by right. }
  intros [[= -> ->]|Hin]%elem_of_cons; rewrite fmap_cons; cbn [snd].
  - rewrite filter_cons_True by (apply Hitems; left).
    f_equal. apply filter_none.
    intros r ([k0 r0] & -> & Hin0)%list_elem_of_fmap Hid. cbn in Hid.
    apply Hk'. apply list_elem_of_fmap. exists (k0, r0).
    split; [cbn; by rewrite <-(Hids k0 r0 Hin0)|done].
  - rewrite filter_cons_False.
    + apply IH; [done| |done]. intros k0 r0 Hin0. apply Hitems. by right.
    + assert ((k', r') ∈ (k', r') :: db) as Hhere by left.
      destruct (Hitems k' r' Hhere) as [Hid' _]. intros Hk.
      apply Hk'. apply list_elem_of_fmap. exists (k, record).
      split; [cbn; congruence|done].
Qed.

(** C1.  In every store the service can reach, creating a value that is
    already stored fails with [Conflict] and leaves the store as it was.
    In particular, after [create_string] has returned a record for a
    value, creating the same value again fails with [Conflict]; the store
    then holds exactly one record whose identity is the hash of the value,
    and it is the record of the first call, neither overwritten nor
    merged. *)
Theorem create_twice_conflicts now string_input db :
  reachable db →
  (∀ k record, (k, record) ∈ db → r_value record = value string_input →
     create_string now string_input db = (Conflict, db)) ∧
  (∀ record db', create_string now string_input db = (Returned record, db') →
     compute_sha256 (value string_input) = Some (r_id record) ∧
     filter (λ r, r_id r = r_id record) (dict_values db') = [record] ∧
     dict_get (r_id record) db' = Some record ∧
     ∀ now', create_string now' string_input db' = (Conflict, db')).
Proof.
  intros Hreach.
  assert (∀ now db k record, store_ok db → (k, record) ∈ db →
            r_value record = value string_input →
            create_string now string_input db = (Conflict, db)) as Hstored.
  { intros now0 db0 k record Hok Hin Hvalue.
    destruct (stored_record_key db0 k record Hok Hin) as [Hk _].
    unfold create_string. rewrite <-Hvalue, Hk.
    replace (dict_in k db0) with true; [done|].
    symmetry. apply dict_in_true, list_elem_of_fmap. by exists (k, record). }
  split; [intros k record; by apply Hstored, reachable_store_ok|].
  intros record db' Hcreate.
  assert (store_ok db') as Hok'
    by (eapply create_string_store_ok; [by apply reachable_store_ok|done]).
  apply create_string_Returned in Hcreate as (Hh & Hfresh & Hr & ->).
  assert ((r_id record, record) ∈ db ++ [(r_id record, record)]) as Hin
    by (apply elem_of_app; right; left).
  split; [done|]. split; [by apply one_record_per_identity|].
  split; [by apply dict_get_last|].
  intros now'. apply (Hstored now' _ (r_id record) record Hok' Hin).
  by apply analyze_string_Some in Hr as (h & _ & ->).
Qed.

(** C7.  [get_string] and [delete_string] look the value up under its
    recomputed identity.  They fail with [NotFound], leaving the store as
    it was, when that identity is not a key of the store; and once a value
    has been deleted, getting (or deleting) it fails with [NotFound].  In
    a store the service can reach, a stored value is found under its
    identity, and a value that no record holds is not found unless a
    stored value has the same SHA-256. *)
Theorem get_delete_not_found :
  (∀ string_value sha256_hash db,
     compute_sha256 string_value = Some sha256_hash →
     dict_in sha256_hash db = false →
     get_string string_value db = (NotFound, db) ∧
     delete_string string_value db = (NotFound, db)) ∧
  (∀ string_value db response db',
     delete_string string_value db = (Returned response, db') →
     get_string string_value db' = (NotFound, db') ∧
     delete_string string_value db' = (NotFound, db')) ∧
  (∀ db k record, reachable db → (k, record) ∈ db →
     get_string (r_value record) db = (Returned record, db) ∧
     delete_string (r_value record) db =
       (Returned {| status_code := 204 |}, dict_del k db)) ∧
  (∀ string_value db, reachable db →
     is_Some (compute_sha256 string_value) →
     (∀ k record, (k, record) ∈ db → r_value record ≠ string_value) →
     (get_string string_value db = (NotFound, db) ∧
      delete_string string_value db = (NotFound, db)) ∨
     ∃ k record, (k, record) ∈ db ∧ r_value record ≠ string_value ∧
       compute_sha256 (r_value record) = compute_sha256 string_value).
Proof.
  assert (∀ string_value sha256_hash db,
     compute_sha256 string_value = Some sha256_hash →
     dict_in sha256_hash db = false →
     get_string string_value db = (NotFound, db) ∧
     delete_string string_value db = (NotFound, db)) as Habsent.
  { intros v h db Hh Hin. unfold get_string, delete_string. rewrite Hh, Hin.
    apply dict_in_false, dict_get_None in Hin. by rewrite Hin. }
  split; [exact Habsent|]. split; [|split].
  - intros v db response db'. unfold delete_string at 1.
    destruct (compute_sha256 v) as [h|] eqn:Hh; [|done].
    destruct (dict_in h db); intros [= <- <-].
    apply (Habsent v h); [done|].
    apply dict_in_false, dict_get_None, dict_get_del.
  - intros db k record Hok%reachable_store_ok Hin.
    destruct (stored_record_key db k record Hok Hin) as [Hk Hget].
    unfold get_string, delete_string. rewrite Hk, Hget.
    replace (dict_in k db) with true; [done|].
    symmetry. apply dict_in_true, list_elem_of_fmap. by exists (k, record).
  - intros v db Hok%reachable_store_ok [h Hh] Hvalues.
    destruct (dict_in h db) eqn:Hin; [right|left; by apply (Habsent v h)].
    apply dict_in_true, list_elem_of_fmap in Hin as ([k record] & -> & Hin).
    exists k, record. split; [done|]. split; [by eapply Hvalues|].
    destruct (stored_record_key db k record Hok Hin) as [-> _]. by rewrite Hh.
Qed.

(** C9.  The natural-language endpoint does not check the range: when
    the phrase parses to a filter set whose [min_length] is greater than
    its [max_length], it returns normally, with no record, since none
    satisfies both bounds, whereas [get_all_strings] given the same two
    bounds fails with [InvalidRange]. *)
Theorem natural_language_range_not_checked query db filters lo hi :
  parse_natural_language_query query = Some filters →
  f_min_length filters = Some lo →
  f_max_length filters = Some hi →
  (lo > hi)%Z →
  filter_by_natural_language query db =
    (Returned {|
       nl_data := [];
       nl_count := 0;
       nl_interpreted_query := {| original := query; parsed_filters := filters |}
     |}, db) ∧
  (∀ s, ¬ satisfies filters s) ∧
  ∀ is_palindrome word_count contains_character,
    get_all_strings is_palindrome (Some lo) (Some hi) word_count contains_character db =
      (InvalidRange, db).
Proof.
  intros Hparse Hlo Hhi Hgt.
  assert (∀ s, ¬ satisfies filters s) as Hnone.
  { intros s (_ & Hmin & Hmax & _).
    specialize (Hmin lo Hlo). specialize (Hmax hi Hhi). cbv beta in *. lia. }
  split; [|split; [exact Hnone|]].
  - unfold filter_by_natural_language. rewrite Hparse.
    destruct (filters_empty filters) eqn:Hempty.
    + apply filters_empty_fields in Hempty as (_ & Hmin & _). congruence.
    + cbv zeta. rewrite apply_filters_filter, filter_none; [done|]. intros s _. apply Hnone.
  - intros p w c. unfold get_all_strings. by rewrite bool_decide_eq_true_2.
Qed.

(** C10.  In every record that [analyze_string] produces, and so in
    every record of a store the service can reach, the counts of the
    frequency map add up to the length and the number of its keys is the
    number of unique characters. *)
Theorem frequency_map_totals :
  (∀ now text record, analyze_string now text = Some record →
     sum_values (p_character_frequency_map (r_properties record)) =
       p_length (r_properties record) ∧
     Z.of_nat (size (p_character_frequency_map (r_properties record))) =
       p_unique_characters (r_properties record)) ∧
  (∀ db k record, reachable db → (k, record) ∈ db →
     sum_values (p_character_frequency_map (r_properties record)) =
       p_length (r_properties record) ∧
     Z.of_nat (size (p_character_frequency_map (r_properties record))) =
       p_unique_characters (r_properties record)).
Proof.
  assert (∀ now text record, analyze_string now text = Some record →
     sum_values (p_character_frequency_map (r_properties record)) =
       p_length (r_properties record) ∧
     Z.of_nat (size (p_character_frequency_map (r_properties record))) =
       p_unique_characters (r_properties record)) as Hanalyze.
  { intros now text record (h & _ & ->)%analyze_string_Some. cbn.
    unfold get_character_frequency, count_unique_characters.
    split; [apply Counter_sum|].
    by rewrite <-Counter_dom, size_dom. }
  split; [exact Hanalyze|].
  intros db k record [_ Hitems]%reachable_store_ok Hin.
  destruct (Hitems k record Hin) as [_ [now Hrecord]]. eauto.
Qed.

End StoreProperties.

(** ** The properties at concrete inputs *)

Lemma create_twice_conflicts_witness :
  ∃ record db',
    create_string clock_a {| value := py "test string duplicate" |} [] = (Returned record, db') ∧
    compute_sha256 (py "test string duplicate") = Some (r_id record) ∧
    filter (λ r, r_id r = r_id record) (dict_values db') = [record] ∧
    dict_get (r_id record) db' = Some record ∧
    create_string clock_b {| value := py "test string duplicate" |} db' = (Conflict, db').
Proof.
  destruct (create_string clock_a {| value := py "test string duplicate" |} [])
    as [[record| | |] db'] eqn:Hcreate; [|vm_compute in Hcreate; discriminate Hcreate..].
  exists record, db'. split; [reflexivity|].
  destruct (create_twice_conflicts clock_a {| value := py "test string duplicate" |} []
              reachable_empty) as [_ Hsecond].
  destruct (Hsecond record db' Hcreate) as (Hh & Hone & Hget & Hagain).
  split; [exact Hh|]. split; [exact Hone|]. split; [exact Hget|exact (Hagain clock_b)].
Defined.

Lemma get_delete_not_found_witness :
  (get_string (py "this does not exist at all") [] = (NotFound, []) ∧
   delete_string (py "this does not exist at all") [] = (NotFound, [])) ∧
  delete_string (py "delete me now") (stored clock_a (py "delete me now")) =
    (Returned {| status_code := 204 |}, []) ∧
  get_string (py "delete me now") [] = (NotFound, []) ∧
  delete_string (py "delete me now") [] = (NotFound, []).
Proof.
  assert (delete_string (py "delete me now") (stored clock_a (py "delete me now")) =
            (Returned {| status_code := 204 |}, [])) as Hdelete
    by (vm_compute; reflexivity).
  destruct get_delete_not_found as (Habsent & Hdeleted & _).
  split; [|split; [exact Hdelete|]].
  - destruct (compute_sha256 (py "this does not exist at all")) as [h|] eqn:Hh;
      [|vm_compute in Hh; discriminate Hh].
    exact (Habsent _ h [] Hh eq_refl).
  - exact (Hdeleted _ _ _ _ Hdelete).
Defined.

Lemma natural_language_range_not_checked_witness :
  filter_by_natural_language (py "longer than 10 shorter than 5")
    (stored clock_a (py "hello world")) =
    (Returned {|
       nl_data := [];
       nl_count := 0;
       nl_interpreted_query :=
         {| original := py "longer than 10 shorter than 5";
            parsed_filters :=
              {| f_is_palindrome := None; f_min_length := Some 11%Z;
                 f_max_length := Some 4%Z; f_word_count := None;
                 f_contains_character := None |} |}
     |}, stored clock_a (py "hello world")) ∧
  get_all_strings None (Some 11%Z) (Some 4%Z) None None (stored clock_a (py "hello world")) =
    (InvalidRange, stored clock_a (py "hello world")).
Proof.
  assert (parse_natural_language_query (py "longer than 10 shorter than 5") =
          Some {| f_is_palindrome := None; f_min_length := Some 11%Z;
                  f_max_length := Some 4%Z; f_word_count := None;
                  f_contains_character := None |}) as Hparse
    by (vm_compute; reflexivity).
  destruct (natural_language_range_not_checked (py "longer than 10 shorter than 5")
              (stored clock_a (py "hello world")) _ 11 4 Hparse eq_refl eq_refl eq_refl)
    as (Hnl & _ & Hrange).
  split; [exact Hnl | exact (Hrange None None None)].
Defined.

Lemma frequency_map_totals_witness :
  ∃ record, analyze_string clock_a (py "aabbcc") = Some record ∧
    sum_values (p_character_frequency_map (r_properties record)) = 6%Z ∧
    Z.of_nat (size (p_character_frequency_map (r_properties record))) = 3%Z ∧
    p_length (r_properties record) = 6%Z ∧
    p_unique_characters (r_properties record) = 3%Z.
Proof.
  destruct (analyze_string clock_a (py "aabbcc")) as [record|] eqn:Hrecord;
    [|vm_compute in Hrecord; discriminate Hrecord].
  exists record. split; [reflexivity|].
  destruct frequency_map_totals as [Hanalyze _].
  destruct (Hanalyze clock_a (py "aabbcc") record Hrecord) as [-> ->].
  apply analyze_string_Some in Hrecord as (h & _ & ->). by vm_compute.
Defined.

Lemma apply_filters_is_ordered_conjunction_witness :
  apply_filters (dict_values (stored clock_a (py "Apple"))) (contains_only (py "a")) =
    filter (satisfies_spec (contains_only (py "a"))) (dict_values (stored clock_a (py "Apple"))) ∧
  length (apply_filters (dict_values (stored clock_a (py "Apple"))) (contains_only (py "a"))) = 1%nat.
Proof.
  destruct (apply_filters_is_ordered_conjunction
              (dict_values (stored clock_a (py "Apple"))) (contains_only (py "a")))
    as (_ & _ & _ & Hspec & _).
  split; [|by vm_compute].
  apply Hspec. intros c [= <-]. reflexivity.
Defined.

(** ** The test-suite of the repository, replayed ([test_api.py])

    Each test starts from the empty store.  The two tests of requests
    that FastAPI rejects before it calls a handler (status 422) have no
    counterpart here. *)

Example test_create_string :
  ∃ data db, post clock_a "hello world" [] = (Returned data, db) ∧
    r_value data = py "hello world" ∧
    p_length (r_properties data) = 11%Z ∧
    p_word_count (r_properties data) = 2%Z ∧
    p_is_palindrome (r_properties data) = false.
Proof. eexists _, _. split; [vm_compute; reflexivity|]. by vm_compute. Qed.

Example test_create_palindrome :
  ∃ data db, post clock_a "racecar" [] = (Returned data, db) ∧
    p_is_palindrome (r_properties data) = true ∧
    p_word_count (r_properties data) = 1%Z.
Proof. eexists _, _. split; [vm_compute; reflexivity|]. by vm_compute. Qed.

Example test_create_duplicate_string :
  (post clock_b "test string duplicate" (post clock_a "test string duplicate" []).2).1
  = HTTPException 409 (py "String already exists in the system").
Proof. vm_compute. reflexivity. Qed.

Example test_get_string :
  ∃ data,
    (get_string (py "retrieve me please") (post clock_a "retrieve me please" []).2).1
    = Returned data ∧
    r_value data = py "retrieve me please".
Proof. eexists. split; [vm_compute; reflexivity|]. by vm_compute. Qed.

Example test_get_nonexistent_string :
  (get_string (py "this does not exist at all") []).1
  = HTTPException 404 (py "String does not exist in the system").
Proof. vm_compute. reflexivity. Qed.

Example test_get_all_strings :
  (get_all_strings None None None None None []).1
  = Returned {| sl_data := []; sl_count := 0; sl_filters_applied := no_filters |}.
Proof. vm_compute. reflexivity. Qed.

Example test_filter_by_palindrome :
  ∃ data, (get_all_strings (Some true) None None None None noon_and_not).1 = Returned data ∧
    r_value <$> sl_data data = [py "noon"] ∧ sl_count data = 1%Z.
Proof. eexists. split; [vm_compute; reflexivity|]. by vm_compute. Qed.

Example test_filter_by_length :
  ∃ data, (get_all_strings None (Some 10%Z) None None None short_and_long).1 = Returned data ∧
    r_value <$> sl_data data = [py "this is a much longer string"].
Proof. eexists. split; [vm_compute; reflexivity|]. by vm_compute. Qed.

Example test_filter_by_word_count :
  ∃ data,
    (get_all_strings None None None (Some 1%Z) None
       (post clock_b "two words here" (post clock_a "single" []).2).2).1 = Returned data ∧
    r_value <$> sl_data data = [py "single"].
Proof. eexists. split; [vm_compute; reflexivity|]. by vm_compute. Qed.

Example test_filter_by_contains_character :
  ∃ data,
    (get_all_strings None None None None (Some (py "z"))
       (post clock_b "no special letter here" (post clock_a "zebra animal" []).2).2).1
    = Returned data ∧
    r_value <$> sl_data data = [py "zebra animal"].
Proof. eexists. split; [vm_compute; reflexivity|]. by vm_compute. Qed.

Example test_natural_language_single_word_palindrome :
  ∃ data,
    (filter_by_natural_language (py "single word palindromic strings")
       (post clock_b "not a palindrome at all" (post clock_a "level" []).2).2).1
    = Returned data ∧
    f_word_count (parsed_filters (nl_interpreted_query data)) = Some 1%Z ∧
    f_is_palindrome (parsed_filters (nl_interpreted_query data)) = Some true ∧
    r_value <$> nl_data data = [py "level"].
Proof. eexists. split; [vm_compute; reflexivity|]. by vm_compute. Qed.

Example test_natural_language_longer_than :
  (filter_by_natural_language (py "strings longer than 10 characters") []).1
  = Returned {|
      nl_data := []; nl_count := 0;
      nl_interpreted_query :=
        {| original := py "strings longer than 10 characters";
           parsed_filters := set_min_length 11 no_filters |} |}.
Proof. vm_compute. reflexivity. Qed.

Example test_natural_language_contains_letter :
  (filter_by_natural_language (py "strings containing the letter a") []).1
  = Returned {|
      nl_data := []; nl_count := 0;
      nl_interpreted_query :=
        {| original := py "strings containing the letter a";
           parsed_filters := contains_only (py "a") |} |}.
Proof. vm_compute. reflexivity. Qed.

Example test_delete_string :
  delete_string (py "delete me now") (post clock_a "delete me now" []).2
    = (Returned {| status_code := 204 |}, []) ∧
  (get_string (py "delete me now") []).1
    = HTTPException 404 (py "String does not exist in the system").
Proof. vm_compute. done. Qed.

Example test_delete_nonexistent_string :
  (delete_string (py "i really do not exist") []).1
  = HTTPException 404 (py "String does not exist in the system").
Proof. vm_compute. reflexivity. Qed.

Example test_character_frequency_map :
  ∃ data db, post clock_a "aabbcc" [] = (Returned data, db) ∧
    p_character_frequency_map (r_properties data) !! 97 = Some 2%Z ∧
    p_character_frequency_map (r_properties data) !! 98 = Some 2%Z ∧
    p_character_frequency_map (r_properties data) !! 99 = Some 2%Z.
Proof. eexists _, _. split; [vm_compute; reflexivity|]. by vm_compute. Qed.

Example test_unique_characters :
  ∃ data db, post clock_a "aabbcc" [] = (Returned data, db) ∧
    p_unique_characters (r_properties data) = 3%Z.
Proof. eexists _, _. split; [vm_compute; reflexivity|]. by vm_compute. Qed.

(** * Further properties of the code *)

(** ** The analyzer's helpers *)

Section HelperProperties.
Context `{tables : UnicodeData} `{limit : IntMaxStrDigits}.

Lemma split_from_words word text :
  from_option (λ w, w ≠ [] ∧ Forall (λ c, isspace c = false) w) True word →
  Forall (λ w, w ≠ [] ∧ Forall (λ c, isspace c = false) w) (split_from word text).
Proof.
  revert word. induction text as [|c text IH]; intros word Hword; cbn.
  - destruct word; [by constructor|constructor].
  - destruct (isspace c) eqn:Hc.
    + apply Forall_app. split; [destruct word; [by constructor|constructor]|by apply IH].
    + apply IH. cbn. split; [by destruct (default [] word)|].
      apply Forall_app. split; [|by constructor].
      destruct word as [w|]; [apply Hword|constructor].
Qed.

Lemma split_from_join word text :
  mjoin (split_from word text) =
  default [] word ++ filter (λ c, isspace c = false) text.
Proof.
  revert word. induction text as [|c text IH]; intros word; cbn [split_from].
  - destruct word; cbn; by rewrite ?app_nil_r.
  - rewrite filter_cons. destruct (isspace c) eqn:Hc.
    + rewrite decide_False by done. rewrite join_app, IH.
      destruct word; cbn; by rewrite ?app_nil_r.
    + rewrite decide_True by done. rewrite IH. cbn. by rewrite <-app_assoc.
Qed.

Lemma split_from_app word a sp b :
  isspace sp = true →
  split_from word (a ++ sp :: b) = split_from word a ++ split_from None b.
Proof.
  intros Hsp. revert word. induction a as [|c a IH]; intros word; cbn.
  - by rewrite Hsp.
  - destruct (isspace c); [by rewrite IH, app_assoc|apply IH].
Qed.

Lemma split_from_nil word text :
  split_from word text = [] ↔ word = None ∧ Forall (λ c, isspace c = true) text.
Proof.
  revert word. induction text as [|c text IH]; intros word; cbn.
  - destruct word as [w|]; cbn.
    + split; [done|by intros [[=] _]].
    + split; [by intros _; split|done].
  - destruct (isspace c) eqn:Hc.
    + destruct word as [w|]; cbn; [split; [done|by intros [[=] _]]|].
      rewrite IH. split; [intros [_ ?]; by split; [|constructor]|].
      intros [_ Hall]. split; [done|]. by inversion Hall.
    + rewrite IH. split; [by intros [[=] _]|].
      intros [_ Hall]. inversion Hall; congruence.
Qed.

Lemma split_from_no_space word text :
  Forall (λ c, isspace c = false) text →
  split_from word text =
  match word, text with
  | None, [] => []
  | _, _ => [default [] word ++ text]
  end.
Proof.
  intros Htext. revert word. induction Htext as [|c text Hc _ IH]; intros word.
  - destruct word; cbn; by rewrite ?app_nil_r.
  - cbn [split_from]. rewrite Hc, IH. destruct word; cbn; by rewrite <-?app_assoc.
Qed.

Lemma first_space text :
  Forall (λ c, isspace c = false) text ∨
  ∃ a sp b, text = a ++ sp :: b ∧ Forall (λ c, isspace c = false) a ∧ isspace sp = true.
Proof.
  induction text as [|c text IH]; [left; constructor|].
  destruct (isspace c) eqn:Hc.
  - right. by exists [], c, text.
  - destruct IH as [Hall|(a & sp & b & -> & Ha & Hsp)]; [left; by constructor|].
    right. exists (c :: a), sp, b. split; [done|]. split; [by constructor|done].
Qed.

(** Every word of [text.split()] is a maximal run of non-whitespace. *)
Lemma split_maximal text : Forall (maximal_run isspace text) (split text).
Proof.
  remember (length text) as n eqn:Hn. revert text Hn.
  induction n as [n IH] using lt_wf_ind. intros text ->.
  destruct (first_space text) as [Hall|(a & sp & b & -> & Ha & Hsp)]; unfold split.
  - rewrite split_from_no_space by done. destruct text as [|c text]; [constructor|].
    cbn [default app]. constructor; [|constructor].
    split; [done|]. split; [done|]. exists [], []. rewrite app_nil_r. auto.
  - rewrite split_from_app by done. apply Forall_app. split.
    + rewrite split_from_no_space by done. destruct a as [|c a]; [constructor|].
      cbn [default app]. constructor; [|constructor].
      split; [done|]. split; [done|]. exists [], (sp :: b).
      split; [done|]. split; [by left|]. right. eauto.
    + eapply Forall_impl.
      { apply (IH (length b)); [rewrite length_app; cbn; lia|done]. }
      intros w (Hne & Hw & before & after & -> & Hbefore & Hafter).
      split; [done|]. split; [done|]. exists (a ++ sp :: before), after.
      split; [by rewrite <-app_assoc|]. split; [|done].
      right. destruct Hbefore as [->|(b' & c & -> & Hc)].
      * by exists a, sp.
      * exists (a ++ sp :: b'), c. split; [by rewrite <-app_assoc|done].
Qed.

(** X1.  [count_words] counts the maximal runs of non-whitespace
    characters.  A text without whitespace is one word, itself, unless it
    is empty; the words of a text are those before one of its whitespace
    characters followed by those after it; and these two facts fix
    [text.split()] for every text.  So each word is a maximal run of
    non-whitespace of the text, the words joined are the text without
    its whitespace, there is no word exactly when the text is all
    whitespace, and the counts on the two sides of a whitespace
    character add up. *)
Theorem count_words_runs text :
  (Forall (λ c, isspace c = false) text →
   split text = match text with [] => [] | _ => [text] end) ∧
  (∀ a b sp, text = a ++ sp :: b → isspace sp = true →
     split text = split a ++ split b) ∧
  Forall (maximal_run isspace text) (split text) ∧
  mjoin (split text) = filter (λ c, isspace c = false) text ∧
  (count_words text = 0%Z ↔ Forall (λ c, isspace c = true) text) ∧
  (text ≠ [] → Forall (λ c, isspace c = false) text → count_words text = 1%Z) ∧
  (0 ≤ count_words text ≤ Z.of_nat (length (filter (λ c, isspace c = false) text)))%Z ∧
  (∀ a b sp, text = a ++ sp :: b → isspace sp = true →
     count_words text = (count_words a + count_words b)%Z).
Proof.
  pose proof (split_from_words None text I) as Hwords.
  pose proof (split_from_join None text) as Hjoin. cbn in Hjoin.
  split; [|split; [|split; [apply split_maximal|]]].
  { intros Hall. unfold split. rewrite split_from_no_space by done. by destruct text. }
  { intros a b sp -> Hsp. unfold split. by rewrite split_from_app. }
  split; [exact Hjoin|]. split; [|split; [|split]].
  - unfold count_words, split.
    assert (split_from None text = [] ↔ Forall (λ c, isspace c = true) text) as <-
      by (rewrite split_from_nil; tauto).
    destruct (split_from None text); cbn; split; (done || lia).
  - intros Hne Hall. unfold count_words, split.
    rewrite split_from_no_space by done. by destruct text.
  - unfold count_words. split; [lia|]. apply inj_le.
    rewrite <-Hjoin. clear Hjoin. revert Hwords. unfold split. generalize (split_from None text).
    intros l Hl. induction Hl as [|w l' [Hw _] _ IH]; [cbn; lia|].
    change (mjoin (w :: l')) with (w ++ mjoin l').
    rewrite length_app. destruct w; [done|]. cbn [length]. lia.
  - intros a b sp -> Hsp. unfold count_words, split.
    rewrite split_from_app by done. rewrite length_app. lia.
Qed.

Lemma Counter_from_lookup (counts : gmap N Z) text c :
  default 0%Z
    (foldl (λ counts c, <[c := (default 0 (counts !! c) + 1)%Z]> counts) counts text !! c) =
  (default 0 (counts !! c) + occurrences c text)%Z.
Proof.
  unfold occurrences. revert counts. induction text as [|x text IH]; intros counts.
  - cbn. lia.
  - cbn [foldl]. rewrite IH, filter_cons. destruct (decide (x = c)) as [->|Hx].
    + rewrite lookup_insert_eq. cbn [default length id]. unfold id. lia.
    + rewrite lookup_insert_ne by done. lia.
Qed.

Lemma occurrences_positive c text : c ∈ text ↔ (1 ≤ occurrences c text)%Z.
Proof.
  unfold occurrences. split.
  - intros Hc. assert (c ∈ filter (λ x, x = c) text) as Hin
      by (by apply list_elem_of_filter).
    destruct (filter (λ x, x = c) text); [by apply elem_of_nil in Hin|cbn; lia].
  - intros Hn. destruct (filter (λ x, x = c) text) as [|x l] eqn:Hl; [cbn in Hn; lia|].
    assert (x ∈ filter (λ x, x = c) text) as Hin by (rewrite Hl; left).
    apply list_elem_of_filter in Hin as [-> Hin]. done.
Qed.

(** X2.  The frequency map gives each character that occurs in the text
    the number of its occurrences, which is at least 1, and has no entry
    for any other character; the characters are told apart as they
    stand, so the entries of the two cases of a letter are separate. *)
Theorem character_frequency_counts_occurrences text c :
  get_character_frequency text !! c =
    (if decide (c ∈ text) then Some (occurrences c text) else None) ∧
  (c ∈ text ↔ (1 ≤ occurrences c text)%Z) ∧
  (∀ n, get_character_frequency text !! c = Some n → (1 ≤ n ≤ Z.of_nat (length text))%Z) ∧
  (∀ a b, text = a ++ b → occurrences c text = (occurrences c a + occurrences c b)%Z).
Proof.
  assert (get_character_frequency text !! c =
          if decide (c ∈ text) then Some (occurrences c text) else None) as Hlookup.
  { unfold get_character_frequency.
    pose proof (Counter_keys text c) as Hkeys.
    pose proof (Counter_from_lookup ∅ text c) as Hval.
    rewrite lookup_empty in Hval. cbn [default] in Hval. fold (Counter text) in Hval.
    destruct (decide (c ∈ text)) as [Hc|Hc].
    - apply Hkeys in Hc as [n Hn]. rewrite Hn in Hval |- *. cbn in Hval. f_equal. lia.
    - destruct (Counter text !! c) eqn:Hn; [|done]. destruct Hc. apply Hkeys. eauto. }
  split; [exact Hlookup|]. split; [apply occurrences_positive|]. split.
  - intros n. rewrite Hlookup. destruct (decide (c ∈ text)) as [Hc|]; [|done].
    intros [= <-]. split; [by apply occurrences_positive|].
    unfold occurrences. apply inj_le, length_filter.
  - intros a b ->. unfold occurrences. rewrite filter_app, length_app. lia.
Qed.

Lemma size_list_to_set_remove_dups (text : str) :
  size (list_to_set text : gset N) = length (remove_dups text).
Proof.
  rewrite <-(size_list_to_set (C:=gset N) (remove_dups text)) by apply NoDup_remove_dups.
  f_equal. apply set_eq. intros c.
  by rewrite !elem_of_list_to_set, elem_of_remove_dups.
Qed.

Lemma size_list_to_set_le (text : str) :
  (size (list_to_set text : gset N) ≤ length text)%nat.
Proof.
  rewrite size_list_to_set_remove_dups.
  induction text as [|c text IH]; cbn; [done|].
  destruct (decide_rel elem_of c text); cbn; lia.
Qed.

Lemma size_list_to_set_NoDup (text : str) :
  size (list_to_set text : gset N) = length text ↔ NoDup text.
Proof.
  split; [|apply size_list_to_set].
  induction text as [|c text IH]; [constructor|].
  cbn [list_to_set length]. intros Hsize.
  destruct (decide (c ∈ text)) as [Hc|Hc].
  - pose proof (size_list_to_set_le text) as Hle.
    assert ({[c]} ∪ list_to_set text = (list_to_set text : gset N)) as Heq.
    { apply set_eq. intros x. rewrite elem_of_union, elem_of_singleton, elem_of_list_to_set.
      split; [intros [->|]; done|by right]. }
    rewrite Heq in Hsize. lia.
  - rewrite size_union, size_singleton in Hsize
      by (apply disjoint_singleton_l; by rewrite elem_of_list_to_set).
    constructor; [done|]. apply IH. lia.
Qed.

(** X3.  [count_unique_characters] lies between 0 and the length of the
    text; it is the length exactly when no character repeats, 0 exactly
    for the empty text, and it is the number of characters with an
    occurrence, whatever their order or number. *)
Theorem count_unique_characters_bounds text :
  (0 ≤ count_unique_characters text ≤ Z.of_nat (length text))%Z ∧
  (count_unique_characters text = Z.of_nat (length text) ↔ NoDup text) ∧
  (count_unique_characters text = 0%Z ↔ text = []) ∧
  count_unique_characters text = Z.of_nat (length (remove_dups text)) ∧
  (∀ text', (∀ c, c ∈ text ↔ c ∈ text') →
     count_unique_characters text' = count_unique_characters text).
Proof.
  unfold count_unique_characters. split; [|split; [|split; [|split]]].
  - pose proof (size_list_to_set_le text). lia.
  - rewrite <-size_list_to_set_NoDup. lia.
  - split; [|by intros ->].
    destruct text as [|c text]; [done|]. cbn [list_to_set]. intros Hsize.
    assert (size ({[c]} ∪ list_to_set text : gset N) = 0%nat) as Hzero by lia.
    apply size_empty_inv in Hzero.
    destruct (not_elem_of_empty (C:=gset N) c). apply Hzero.
    apply elem_of_union. left. by apply elem_of_singleton.
  - by rewrite size_list_to_set_remove_dups.
  - intros text' Hsame. do 2 f_equal. apply set_eq. intros c.
    rewrite !elem_of_list_to_set. symmetry. apply Hsame.
Qed.

End HelperProperties.

(** ** The identity *)

Lemma utf8_char_scalar c : is_Some (utf8_char c) → is_scalar_value c = true.
Proof.
  unfold is_scalar_value, utf8_char. intros [bs Hc]. revert Hc.
  destruct (N.ltb_spec c 0x80), (N.ltb_spec c 0x800), (N.leb_spec 0xD800 c),
    (N.leb_spec c 0xDFFF), (N.ltb_spec c 0x10000), (N.ltb_spec c 0x110000),
    (N.ltb_spec c 0xD800), (N.ltb_spec 0xDFFF c); cbn; try done; lia.
Qed.

Lemma compute_sha256_scalar text :
  is_Some (compute_sha256 text) ↔ forallb is_scalar_value text = true.
Proof.
  split; [|apply compute_sha256_is_Some].
  unfold compute_sha256, encode. rewrite !fmap_is_Some.
  intros Htext. apply mapM_is_Some in Htext.
  apply forallb_forall. intros c Hc. apply utf8_char_scalar.
  rewrite Forall_forall in Htext. by apply Htext, list_elem_of_In.
Qed.

Lemma length_round st kw : length (SHA256.round st kw) = length st.
Proof.
  unfold SHA256.round. do 8 (destruct st as [|? st]; [done|]). by destruct st.
Qed.

Lemma length_foldl_round h kws : length (foldl SHA256.round h kws) = length h.
Proof.
  revert h. induction kws as [|kw kws IH]; intros h; cbn; [done|].
  by rewrite IH, length_round.
Qed.

Lemma length_compress h block : length (SHA256.compress h block) = length h.
Proof.
  unfold SHA256.compress. rewrite length_zip_with, length_foldl_round. lia.
Qed.

Lemma length_foldl_compress h blocks :
  length (foldl SHA256.compress h blocks) = length h.
Proof.
  revert h. induction blocks as [|block blocks IH]; intros h; cbn; [done|].
  by rewrite IH, length_compress.
Qed.

Lemma be_bytes_bytes n x : Forall (λ b, b < 256) (SHA256.be_bytes n x).
Proof.
  induction n as [|n IH]; cbn [SHA256.be_bytes]; constructor; [|done].
  change 255 with (N.ones 8). rewrite N.land_ones. by apply N.mod_lt.
Qed.

Lemma length_be_bytes n x : length (SHA256.be_bytes n x) = n.
Proof. induction n as [|n IH]; cbn; congruence. Qed.

Lemma digest_bytes msg :
  length (SHA256.digest msg) = 32%nat ∧ Forall (λ b, b < 256) (SHA256.digest msg).
Proof.
  unfold SHA256.digest. cbv zeta.
  pose proof (length_foldl_compress SHA256.H0
    (SHA256.chunks (length (SHA256.pad msg)) 64 (SHA256.pad msg))) as Hlen.
  change (length SHA256.H0) with 8%nat in Hlen. revert Hlen.
  generalize (foldl SHA256.compress SHA256.H0
    (SHA256.chunks (length (SHA256.pad msg)) 64 (SHA256.pad msg))).
  intros h Hlen. split.
  - transitivity (4 * length h)%nat; [|lia]. clear Hlen.
    induction h as [|x h IH]; [done|].
    rewrite bind_cons, length_app, length_be_bytes, IH. cbn [length]. lia.
  - apply Forall_bind, Forall_forall. intros x _. apply be_bytes_bytes.
Qed.

Lemma hex_digit_is_hex d : d < 16 → is_hex_digit (SHA256.hex_digit d) = true.
Proof.
  intros Hd. unfold is_hex_digit, SHA256.hex_digit.
  apply orb_true_iff. destruct (N.ltb_spec d 10); [left|right];
    apply andb_true_iff; split; apply N.leb_le; lia.
Qed.

Lemma hexdigest_digits msg :
  length (SHA256.hexdigest msg) = 64%nat ∧
  Forall (λ c, is_hex_digit c = true) (SHA256.hexdigest msg).
Proof.
  unfold SHA256.hexdigest. destruct (digest_bytes msg) as [Hlen Hbytes].
  revert Hlen Hbytes. generalize (SHA256.digest msg). intros bs Hlen Hbytes. split.
  - transitivity (2 * length bs)%nat; [|lia]. clear.
    induction bs as [|b bs IH]; [done|]. rewrite bind_cons, length_app, IH. cbn [length]. lia.
  - apply Forall_bind. eapply Forall_impl; [exact Hbytes|]. cbv beta.
    intros b Hb. repeat constructor; apply hex_digit_is_hex.
    + rewrite N.shiftr_div_pow2. apply N.Div0.div_lt_upper_bound.
      change (2 ^ 4 * 16) with 256. exact Hb.
    + change 15 with (N.ones 4). rewrite N.land_ones. by apply N.mod_lt.
Qed.

(** X4.  [compute_sha256] has a value exactly for the texts that
    [encode] accepts, those without a surrogate code point or one beyond
    U+10FFFF, and that value is 64 characters long, each a digit or a
    lower-case letter from a to f. *)
Theorem compute_sha256_hex_digits text :
  (is_Some (compute_sha256 text) ↔ forallb is_scalar_value text = true) ∧
  (∀ sha256_hash, compute_sha256 text = Some sha256_hash →
     length sha256_hash = 64%nat ∧ forallb is_hex_digit sha256_hash = true).
Proof.
  split; [apply compute_sha256_scalar|].
  unfold compute_sha256. intros sha256_hash Hsha.
  apply fmap_Some in Hsha as (msg & _ & ->).
  destruct (hexdigest_digits msg) as [Hlen Hdigits]. split; [exact Hlen|].
  apply forallb_forall. intros c Hc. rewrite Forall_forall in Hdigits.
  by apply Hdigits, list_elem_of_In.
Qed.

(** ** Palindromes of ASCII text *)

Section PalindromeProperties.
Context `{tables : UnicodeData} `{limit : IntMaxStrDigits}.

Lemma forallb_is_ascii text :
  forallb is_ascii text = true ↔ Forall (λ c, is_ascii c = true) text.
Proof.
  rewrite forallb_forall, Forall_forall.
  split; intros Htext c Hc; by apply Htext, list_elem_of_In.
Qed.

Lemma ascii_lower_is_ascii c : is_ascii c = true → is_ascii (ascii_lower c) = true.
Proof.
  unfold is_ascii, ascii_lower. intros Hc%N.ltb_lt.
  destruct ((65 <=? c) && (c <=? 90)) eqn:Hupper; apply N.ltb_lt; [|done].
  apply andb_true_iff in Hupper as [_ Hz%N.leb_le]. lia.
Qed.

Lemma ascii_lower_idemp c : ascii_lower (ascii_lower c) = ascii_lower c.
Proof.
  unfold ascii_lower. destruct ((65 <=? c) && (c <=? 90)) eqn:Hupper; [|by rewrite Hupper].
  apply andb_true_iff in Hupper as [Ha%N.leb_le Hz%N.leb_le].
  destruct (N.leb_spec (c + 32) 90); [lia|]. by rewrite andb_false_r.
Qed.

Lemma is_palindrome_ascii_cleaned text :
  forallb is_ascii text = true →
  is_palindrome text =
  bool_decide (without_spaces (ascii_lower <$> text) =
               reverse (without_spaces (ascii_lower <$> text))).
Proof.
  intros Htext. unfold is_palindrome. cbv zeta.
  by rewrite str_replace_space, lower_ascii.
Qed.

(** X5.  On ASCII text, where lower-casing works character by character,
    [is_palindrome] does not tell a text from its reverse or from its
    lower-cased form, does not see a space put anywhere into the text,
    and accepts every text followed by its reverse. *)
Theorem is_palindrome_ascii text :
  forallb is_ascii text = true →
  is_palindrome (reverse text) = is_palindrome text ∧
  is_palindrome (ascii_lower <$> text) = is_palindrome text ∧
  is_palindrome (text ++ reverse text) = true ∧
  (∀ a b, text = a ++ b → is_palindrome (a ++ 32 :: b) = is_palindrome text).
Proof.
  intros Htext. pose proof Htext as Hall. apply forallb_is_ascii in Hall.
  rewrite (is_palindrome_ascii_cleaned text) by done.
  split; [|split; [|split]].
  - rewrite is_palindrome_ascii_cleaned
      by (by apply forallb_is_ascii, Forall_reverse).
    unfold without_spaces. rewrite fmap_reverse, filter_reverse, reverse_involutive.
    apply bool_decide_ext. split; intros Hrev; by symmetry.
  - rewrite is_palindrome_ascii_cleaned.
    + rewrite <-list_fmap_compose.
      by rewrite (list_fmap_ext (ascii_lower ∘ ascii_lower) ascii_lower text)
        by (intros; apply ascii_lower_idemp).
    + apply forallb_is_ascii, Forall_fmap.
      eapply Forall_impl; [exact Hall|]. apply ascii_lower_is_ascii.
  - rewrite is_palindrome_ascii_cleaned
      by (apply forallb_is_ascii, Forall_app; split; [done|by apply Forall_reverse]).
    apply bool_decide_eq_true. unfold without_spaces.
    rewrite fmap_app, filter_app, fmap_reverse, filter_reverse.
    by rewrite reverse_app, reverse_involutive.
  - intros a b ->. apply Forall_app in Hall as [Ha Hb].
    rewrite is_palindrome_ascii_cleaned
      by (apply forallb_is_ascii, Forall_app; split; [done|by constructor]).
    unfold without_spaces. rewrite !fmap_app, !filter_app, fmap_cons, filter_cons.
    change (ascii_lower 32) with 32. by rewrite decide_False by (by intros []).
Qed.

End PalindromeProperties.

(** ** The interpreter's patterns *)

Section PatternProperties.
Context `{tables : UnicodeData} `{limit : IntMaxStrDigits}.

Lemma first_from_spec {A} (f : str → option A) text a :
  first_from f text = Some a ↔
  ∃ before suffix, text = before ++ suffix ∧ f suffix = Some a ∧
    ∀ k, (k < length before)%nat → f (drop k text) = None.
Proof.
  induction text as [|c text IH]; cbn [first_from].
  - split.
    + destruct (f []) eqn:Hf; [|done]. intros [= ->].
      exists [], []. split; [done|]. split; [done|]. cbn. lia.
    + intros (before & suffix & Htext & Hf & _).
      symmetry in Htext. apply app_eq_nil in Htext as [-> ->]. by rewrite Hf.
  - destruct (f (c :: text)) eqn:Hf.
    + split.
      * intros [= ->]. exists [], (c :: text). split; [done|]. split; [done|]. cbn. lia.
      * intros (before & suffix & Htext & Hsuffix & Hleft).
        destruct before as [|c' before].
        -- cbn in Htext. subst suffix. congruence.
        -- specialize (Hleft 0%nat ltac:(cbn; lia)). cbn in Hleft. congruence.
    + rewrite IH. split.
      * intros (before & suffix & -> & Hsuffix & Hleft).
        exists (c :: before), suffix. split; [done|]. split; [done|].
        intros [|k] Hk; cbn; [done|]. apply Hleft. cbn in Hk. lia.
      * intros (before & suffix & Htext & Hsuffix & Hleft).
        destruct before as [|c' before].
        -- cbn in Htext. subst suffix. congruence.
        -- injection Htext as -> ->. exists before, suffix.
           split; [done|]. split; [done|].
           intros k Hk. apply (Hleft (S k)). cbn. lia.
Qed.

Lemma first_from_None {A} (f : str → option A) text :
  first_from f text = None ↔ ∀ k, f (drop k text) = None.
Proof.
  induction text as [|c text IH]; cbn [first_from].
  - split.
    + destruct (f []) eqn:Hf; [done|]. intros _ k. by rewrite drop_nil.
    + intros Hnone. specialize (Hnone 0%nat). cbn in Hnone. by rewrite Hnone.
  - destruct (f (c :: text)) eqn:Hf.
    + split; [done|]. intros Hnone. specialize (Hnone 0%nat). cbn in Hnone. congruence.
    + rewrite IH. split.
      * intros Hnone [|k]; cbn; [done|apply Hnone].
      * intros Hnone k. apply (Hnone (S k)).
Qed.

Lemma number_after_is_Some kw p text :
  is_Some (number_after kw p text) ↔ ∃ d rest, text = kw ++ d :: rest ∧ p d = true.
Proof.
  split.
  - intros [digits Hd]. apply number_after_Some in Hd as (after & -> & Hne & Hall & _).
    destruct digits as [|d digits]; [done|].
    exists d, (digits ++ after). split; [done|]. by inversion Hall.
  - intros (d & rest & -> & Hd). unfold number_after.
    assert (strip_prefix kw (kw ++ d :: rest) = Some (d :: rest)) as ->
      by (by apply strip_prefix_Some).
    cbn. rewrite Hd. eauto.
Qed.

(** [re.search] for [kw(c+)] captures the number at the leftmost [kw]
    that one follows. *)
Lemma re_search_leftmost_number kw p text m :
  re_search (Seq (Lit kw) (Group (Plus p))) text = Some m ↔
  ∃ digits, m = Some digits ∧ leftmost_number kw p text digits.
Proof.
  rewrite re_search_number, fmap_Some. unfold leftmost_number. split.
  - intros (digits & Hfirst & ->). exists digits. split; [done|].
    apply first_from_spec in Hfirst as (before & suffix & -> & Hnum & Hleft).
    apply number_after_Some in Hnum as (after & -> & Hne & Hall & Hmax).
    exists before, after. split; [done|]. split; [done|]. split; [done|]. split; [done|].
    intros before' d after' Htext Hd.
    destruct (decide (length before ≤ length before')%nat) as [|Hlt]; [done|].
    specialize (Hleft (length before') ltac:(lia)).
    rewrite Htext, drop_app_length in Hleft.
    assert (is_Some (number_after kw p (kw ++ d :: after'))) as [? Hsome]
      by (apply number_after_is_Some; eauto).
    congruence.
  - intros (digits & -> & before & after & -> & Hne & Hall & Hmax & Hleft).
    exists digits. split; [|done]. apply first_from_spec.
    exists before, (kw ++ digits ++ after). split; [done|].
    split; [apply number_after_Some; eauto|].
    intros k Hk.
    destruct (number_after kw p (drop k (before ++ kw ++ digits ++ after))) eqn:Hnum; [|done].
    assert (is_Some (number_after kw p (drop k (before ++ kw ++ digits ++ after))))
      as (d & rest & Hdrop & Hd)%number_after_is_Some by eauto.
    specialize (Hleft (take k (before ++ kw ++ digits ++ after)) d rest).
    rewrite <-Hdrop, take_drop in Hleft. specialize (Hleft eq_refl Hd).
    rewrite length_take in Hleft. lia.
Qed.

Lemma re_search_no_number kw p text :
  re_search (Seq (Lit kw) (Group (Plus p))) text = None ↔ ¬ number_follows kw p text.
Proof.
  rewrite re_search_number, fmap_None, first_from_None. unfold number_follows. split.
  - intros Hnone (before & d & after & -> & Hd).
    specialize (Hnone (length before)). rewrite drop_app_length in Hnone.
    assert (is_Some (number_after kw p (kw ++ d :: after))) as [? Hsome]
      by (apply number_after_is_Some; eauto).
    congruence.
  - intros Hnone k. destruct (number_after kw p (drop k text)) eqn:Hnum; [|done].
    assert (is_Some (number_after kw p (drop k text)))
      as (d & rest & Hdrop & Hd)%number_after_is_Some by eauto.
    destruct Hnone. exists (take k text), d, rest.
    split; [|done]. by rewrite <-Hdrop, take_drop.
Qed.

Lemma int_value digits n : int digits = Some n → exceeds_limit digits = false ∧ (0 ≤ n)%Z.
Proof.
  unfold int. destruct (exceeds_limit digits); [done|]. intros [= <-]. split; [done|lia].
Qed.

(** X6.  When the parser returns, [max_length] is set exactly when
    "shorter than " is somewhere followed by a digit in the lower-cased
    phrase; its value is one less than the number that starts at the
    leftmost such place and runs as far as the digits go. *)
Theorem max_length_from_shorter_than query filters :
  parse_natural_language_query query = Some filters →
  (∀ v, f_max_length filters = Some v ↔
     ∃ digits n,
       leftmost_number (py "shorter than ") is_digit (lower query) digits ∧
       int digits = Some n ∧ v = (n - 1)%Z) ∧
  (f_max_length filters = None ↔
     ¬ number_follows (py "shorter than ") is_digit (lower query)).
Proof.
  intros Hparse. pose proof (parse_max_length query filters Hparse) as Hmax.
  unfold re_shorter_than in Hmax.
  pose proof (re_search_no_number (py "shorter than ") is_digit (lower query)) as Hno.
  pose proof (re_search_leftmost_number (py "shorter than ") is_digit (lower query)) as Hleft.
  destruct (re_search (Seq (Lit (py "shorter than ")) _) (lower query)) as [m|].
  - destruct Hmax as (n & Hn & ->).
    destruct (proj1 (Hleft m) eq_refl) as (digits & -> & Hdigits).
    change (int digits = Some n) in Hn. split.
    + intros v. split.
      * intros [= <-]. eauto.
      * intros (digits' & n' & Hdigits' & Hn' & ->).
        assert (Some (Some digits) = Some (Some digits')) as [= <-] by (apply Hleft; eauto).
        congruence.
    + split; [done|]. by intros Hnone%Hno.
  - rewrite Hmax. split.
    + intros v. split; [done|]. intros (digits & n & Hdigits & _).
      assert (None = Some (Some digits)) as [=]. apply Hleft. eauto.
    + split; [|done]. intros _. by apply Hno.
Qed.

(** X7.  When the parser returns, [min_length] is the number after the
    leftmost "at least " that a digit follows, when there is one; only
    else is it one more than the number after the leftmost such
    "longer than "; and it is not set when neither is there. *)
Theorem min_length_from_at_least_or_longer_than query filters :
  parse_natural_language_query query = Some filters →
  (∀ v, f_min_length filters = Some v ↔
     (∃ digits,
        leftmost_number (py "at least ") is_digit (lower query) digits ∧
        int digits = Some v) ∨
     (¬ number_follows (py "at least ") is_digit (lower query) ∧
      ∃ digits n,
        leftmost_number (py "longer than ") is_digit (lower query) digits ∧
        int digits = Some n ∧ v = (n + 1)%Z)) ∧
  (f_min_length filters = None ↔
     ¬ number_follows (py "at least ") is_digit (lower query) ∧
     ¬ number_follows (py "longer than ") is_digit (lower query)).
Proof.
  intros Hparse. pose proof (parse_min_length query filters Hparse) as Hmin.
  unfold re_at_least, re_longer_than in Hmin.
  pose proof (re_search_no_number (py "at least ") is_digit (lower query)) as Hno_least.
  pose proof (re_search_no_number (py "longer than ") is_digit (lower query)) as Hno_longer.
  pose proof (re_search_leftmost_number (py "at least ") is_digit (lower query)) as Hat_least.
  pose proof (re_search_leftmost_number (py "longer than ") is_digit (lower query)) as Hlonger_than.
  destruct (re_search (Seq (Lit (py "at least ")) _) (lower query)) as [least|].
  - destruct Hmin as (n & Hn & ->).
    destruct (proj1 (Hat_least least) eq_refl) as (digits & -> & Hleft).
    change (int digits = Some n) in Hn. split.
    + intros v. split.
      * intros [= <-]. left. eauto.
      * intros [(digits' & Hleft' & Hv)|[Hnone%Hno_least _]]; [|done].
        assert (Some (Some digits) = Some (Some digits')) as [= <-] by (apply Hat_least; eauto).
        congruence.
    + split; [done|]. by intros [Hnone%Hno_least _].
  - destruct (re_search (Seq (Lit (py "longer than ")) _) (lower query)) as [longer|].
    + destruct Hmin as (n & Hn & ->).
      destruct (proj1 (Hlonger_than longer) eq_refl) as (digits & -> & Hleft).
      change (int digits = Some n) in Hn. split.
      * intros v. split.
        -- intros [= <-]. right. split; [by apply Hno_least|]. eauto.
        -- intros [(digits' & Hleft' & _)|[_ (digits' & n' & Hleft' & Hn' & ->)]].
           ++ assert (None = Some (Some digits')) as [=]. apply Hat_least. eauto.
           ++ assert (Some (Some digits) = Some (Some digits')) as [= <-]
                by (apply Hlonger_than; eauto).
              congruence.
      * split; [done|]. by intros [_ Hnone%Hno_longer].
    + rewrite Hmin. split.
      * intros v. split; [done|].
        intros [(digits & Hleft & _)|[_ (digits & n & Hleft & _)]].
        -- assert (None = Some (Some digits)) as [=]. apply Hat_least. eauto.
        -- assert (None = Some (Some digits)) as [=]. apply Hlonger_than. eauto.
      * split; [|done]. intros _. split; [by apply Hno_least|by apply Hno_longer].
Qed.

Lemma number_exceeds_limit_leftmost kw text :
  number_exceeds_limit (Seq (Lit kw) (Group (Plus is_digit))) text = true ↔
  ∃ digits, leftmost_number kw is_digit text digits ∧ exceeds_limit digits = true.
Proof.
  unfold number_exceeds_limit.
  pose proof (re_search_leftmost_number kw is_digit text) as Hleft.
  destruct (re_search (Seq (Lit kw) _) text) as [m|].
  - destruct (proj1 (Hleft m) eq_refl) as (digits & -> & Hdigits). cbn [group1 default].
    split; [eauto|]. intros (digits' & Hdigits' & Hlong).
    assert (Some (Some digits) = Some (Some digits')) as [= <-] by (apply Hleft; eauto).
    done.
  - split; [done|]. intros (digits & Hdigits & _).
    assert (None = Some (Some digits)) as [=]. apply Hleft. eauto.
Qed.

(** X21.  The parser raises [ValueError] exactly when the number at the
    leftmost "longer than ", "shorter than " or "at least " that a digit
    follows has more digits than [int] converts, and exactly then the
    endpoint ends in [ValueError].  The parser returns when each of these
    numbers has at most 640 digits, and always when the limit is lifted. *)
Theorem parser_raises_on_long_numbers query db :
  (parse_natural_language_query query = None ↔
     ∃ kw digits, kw ∈ length_keywords ∧
       leftmost_number kw is_digit (lower query) digits ∧
       exceeds_limit digits = true) ∧
  (filter_by_natural_language query db = (ValueError, db) ↔
     parse_natural_language_query query = None) ∧
  ((∀ kw digits, kw ∈ length_keywords →
      leftmost_number kw is_digit (lower query) digits → (length digits ≤ 640)%nat) →
   is_Some (parse_natural_language_query query)) ∧
  (int_max_str_digits = 0 → is_Some (parse_natural_language_query query)).
Proof.
  assert (parse_natural_language_query query = None ↔
          ∃ kw digits, kw ∈ length_keywords ∧
            leftmost_number kw is_digit (lower query) digits ∧
            exceeds_limit digits = true) as Hraises.
  { rewrite parse_None. unfold raises_ValueError, length_keywords.
    unfold re_longer_than, re_shorter_than, re_at_least.
    rewrite !orb_true_iff, !number_exceeds_limit_leftmost. split.
    - intros [[(digits & ? & ?)|(digits & ? & ?)]|(digits & ? & ?)];
        eexists _, digits; (split; [|done]).
      + left.
      + right. left.
      + right. right. left.
    - intros (kw & digits & Hkw & Hdigits & Hlong).
      apply elem_of_cons in Hkw as [->|Hkw]; [left; left; eauto|].
      apply elem_of_cons in Hkw as [->|Hkw]; [left; right; eauto|].
      apply elem_of_cons in Hkw as [->|Hkw]; [right; eauto|].
      by apply elem_of_nil in Hkw. }
  split; [exact Hraises|]. split; [|split].
  - unfold filter_by_natural_language.
    destruct (parse_natural_language_query query) as [filters|]; [|done].
    by destruct (filters_empty filters).
  - intros Hshort. apply not_eq_None_Some. rewrite Hraises.
    intros (kw & digits & Hkw & Hdigits & Hlong).
    rewrite exceeds_limit_short in Hlong by eauto. done.
  - intros Hzero. apply not_eq_None_Some. rewrite Hraises.
    intros (kw & digits & _ & _ & Hlong).
    unfold exceeds_limit in Hlong. rewrite Hzero in Hlong. cbn in Hlong.
    by rewrite andb_false_r in Hlong.
Qed.

Lemma match_at_Seq {R} r1 r2 text g (k : str → option str → option R) :
  match_at (Seq r1 r2) text g k = match_at r1 text g (λ rest g', match_at r2 rest g' k).
Proof. done. Qed.

Lemma match_at_Lit {R} s text g (k : str → option str → option R) m :
  match_at (Lit s) text g k = Some m ↔ ∃ rest, text = s ++ rest ∧ k rest g = Some m.
Proof.
  cbn. destruct (strip_prefix s text) as [rest|] eqn:Hrest.
  - apply strip_prefix_Some in Hrest as ->. split; [eauto|].
    intros (rest' & Heq & Hk). by apply app_inv_head in Heq as ->.
  - split; [done|]. intros (rest & -> & _).
    assert (strip_prefix s (s ++ rest) = Some rest) by (by apply strip_prefix_Some).
    congruence.
Qed.

Lemma match_at_Opt {R} r text g (k : str → option str → option R) m :
  match_at (Opt r) text g k = Some m →
  match_at r text g k = Some m ∨ k text g = Some m.
Proof. cbn. destruct (match_at r text g k); eauto. Qed.

Lemma match_at_Alt {R} r1 r2 text g (k : str → option str → option R) m :
  match_at (Alt r1 r2) text g k = Some m →
  match_at r1 text g k = Some m ∨ match_at r2 text g k = Some m.
Proof. cbn. destruct (match_at r1 text g k); eauto. Qed.

Lemma match_at_Group_Class {R} p text g (k : str → option str → option R) m :
  match_at (Group (Class p)) text g k = Some m ↔
  ∃ x rest, text = x :: rest ∧ p x = true ∧ k rest (Some [x]) = Some m.
Proof.
  cbn. destruct text as [|x rest].
  - split; [done|]. by intros (? & ? & [=] & _).
  - cbn [length]. assert (S (length rest) - length rest = 1)%nat as -> by lia. cbn.
    destruct (p x) eqn:Hx.
    + split; [eauto|]. by intros (? & ? & [= <- <-] & _ & Hk).
    + split; [done|]. intros (? & ? & [= <- <-] & Hx' & _). congruence.
Qed.

Lemma letter_phrases_list :
  letter_phrases =
  [py "contain letter "; py "contain the letter ";
   py "containing letter "; py "containing the letter ";
   py "contains letter "; py "contains the letter "].
Proof. reflexivity. Qed.

(** The pattern of the letter matches at the start of a text exactly
    when one of the six phrases and a letter are there. *)
Lemma match_at_letter text m :
  match_at re_contains_letter text None (λ _ g, Some g) = Some m ↔
  ∃ x, m = Some [x] ∧ letter_at text x.
Proof.
  unfold letter_at. rewrite letter_phrases_list. split.
  - unfold re_contains_letter. intros Hm.
    rewrite match_at_Seq in Hm. apply match_at_Lit in Hm as (r1 & -> & Hm).
    rewrite match_at_Seq in Hm.
    assert (∃ verb r2, (verb = [] ∨ verb = py "ing" ∨ verb = py "s") ∧ r1 = verb ++ r2 ∧
              match_at (Seq (Lit (py " ")) (Seq (Opt (Lit (py "the ")))
                (Seq (Lit (py "letter ")) (Group (Class is_a_to_z)))))
                r2 None (λ _ g, Some g) = Some m) as (verb & r2 & Hverb & -> & Hrest).
    { apply match_at_Opt in Hm as [Hm|Hm].
      - apply match_at_Alt in Hm as [Hm|Hm];
          apply match_at_Lit in Hm as (r2 & -> & Hm);
          [exists (py "ing"), r2|exists (py "s"), r2]; auto.
      - exists [], r1. auto. }
    clear Hm. rewrite match_at_Seq in Hrest.
    apply match_at_Lit in Hrest as (r3 & -> & Hrest). rewrite match_at_Seq in Hrest.
    assert (∃ article r4, (article = [] ∨ article = py "the ") ∧ r3 = article ++ r4 ∧
              match_at (Seq (Lit (py "letter ")) (Group (Class is_a_to_z)))
                r4 None (λ _ g, Some g) = Some m) as (article & r4 & Harticle & -> & Hletter).
    { apply match_at_Opt in Hrest as [Hrest|Hrest].
      - apply match_at_Lit in Hrest as (r4 & -> & Hrest). exists (py "the "), r4. auto.
      - exists [], r3. auto. }
    clear Hrest. rewrite match_at_Seq in Hletter.
    apply match_at_Lit in Hletter as (r5 & -> & Hletter).
    apply match_at_Group_Class in Hletter as (x & after & -> & Hx & [= <-]).
    exists x. split; [done|].
    exists (py "contain" ++ verb ++ py " " ++ article ++ py "letter "), after.
    split; [|split; [by rewrite <-!app_assoc|exact Hx]].
    destruct Hverb as [-> | [-> | ->]]; destruct Harticle as [-> | ->];
      apply list_elem_of_In; repeat (first [left; reflexivity|right]).
  - intros (x & -> & phrase & after & Hphrase & -> & Hx).
    apply list_elem_of_In in Hphrase. cbn [In] in Hphrase.
    change ((97 <=? x) && (x <=? 122) = true) with (is_a_to_z x = true) in Hx.
    destruct Hphrase as [<-|[<-|[<-|[<-|[<-|[<-|[]]]]]]];
      cbv -[take length Nat.sub is_a_to_z]; rewrite Hx; cbn [length];
      (assert (S (length after) - length after = 1)%nat as -> by lia); done.
Qed.

(** [re.search] for the pattern of the letter captures the letter at
    the leftmost place where one is asked for. *)
Lemma re_search_leftmost_letter text m :
  re_search re_contains_letter text = Some m ↔
  ∃ x, m = Some [x] ∧ leftmost_letter text x.
Proof.
  rewrite re_search_first_from, first_from_spec. unfold leftmost_letter. split.
  - intros (before & suffix & -> & Hm & Hleft).
    apply match_at_letter in Hm as (x & -> & Hx). exists x. split; [done|].
    exists before, suffix. split; [done|]. split; [done|].
    intros before' suffix' x' Htext Hx'.
    destruct (decide (length before ≤ length before')%nat) as [|Hlt]; [done|].
    specialize (Hleft (length before') ltac:(lia)).
    rewrite Htext, drop_app_length in Hleft.
    assert (match_at re_contains_letter suffix' None (λ _ g, Some g) = Some (Some [x']))
      by (apply match_at_letter; eauto).
    congruence.
  - intros (x & -> & before & suffix & -> & Hx & Hleft).
    exists before, suffix. split; [done|]. split; [apply match_at_letter; eauto|].
    intros k Hk.
    destruct (match_at re_contains_letter (drop k (before ++ suffix)) None (λ _ g, Some g))
      as [m|] eqn:Hm; [|done].
    apply match_at_letter in Hm as (x' & _ & Hx').
    specialize (Hleft (take k (before ++ suffix)) (drop k (before ++ suffix)) x').
    rewrite take_drop in Hleft. specialize (Hleft eq_refl Hx').
    rewrite length_take in Hleft. lia.
Qed.

Lemma re_search_no_letter text :
  re_search re_contains_letter text = None ↔
  ∀ suffix x, suffix `suffix_of` text → ¬ letter_at suffix x.
Proof.
  rewrite re_search_first_from, first_from_None. split.
  - intros Hnone suffix x [before ->] Hx.
    specialize (Hnone (length before)). rewrite drop_app_length in Hnone.
    assert (match_at re_contains_letter suffix None (λ _ g, Some g) = Some (Some [x]))
      by (apply match_at_letter; eauto).
    congruence.
  - intros Hnone k.
    destruct (match_at re_contains_letter (drop k text) None (λ _ g, Some g))
      as [m|] eqn:Hm; [|done].
    apply match_at_letter in Hm as (x & _ & Hx).
    destruct (Hnone (drop k text) x); [|done].
    exists (take k text). by rewrite take_drop.
Qed.

(** X8.  When the parser returns, "first vowel" in the phrase makes
    [contains_character] "a", whatever letter the phrase asks for.
    Without it, the key is the letter that follows the leftmost of
    "contain", "containing" or "contains", a space, an optional "the "
    and "letter ", when a letter from a to z follows one; it is not set
    when none does. *)
Theorem contains_character_from_letter_phrase query filters :
  parse_natural_language_query query = Some filters →
  (str_contains (py "first vowel") (lower query) = true →
   f_contains_character filters = Some (py "a")) ∧
  (str_contains (py "first vowel") (lower query) = false →
   (∀ c, f_contains_character filters = Some c ↔
      ∃ x, c = [x] ∧ leftmost_letter (lower query) x) ∧
   (f_contains_character filters = None ↔
      ∀ suffix x, suffix `suffix_of` lower query → ¬ letter_at suffix x)).
Proof.
  intros Hparse. rewrite (parse_contains_character query filters Hparse).
  pose proof (re_search_leftmost_letter (lower query)) as Hletter.
  pose proof (re_search_no_letter (lower query)) as Hnone.
  destruct (str_contains (py "first vowel") (lower query)); (split; [done|]); [done|].
  intros _. destruct (re_search re_contains_letter (lower query)) as [m|].
  - destruct (proj1 (Hletter m) eq_refl) as (x & -> & Hx). cbn [group1 default]. split.
    + intros c. split; [intros [= <-]; eauto|]. intros (x' & -> & Hx').
      assert (Some (Some [x]) = Some (Some [x'])) as [= ->]; [|done].
      apply Hletter. eauto.
    + split; [done|]. by intros Hno%Hnone.
  - split; [|by rewrite <-Hnone].
    intros c. split; [done|]. intros (x & -> & Hx).
    assert (None = Some (Some [x])) as [=]. apply Hletter. eauto.
Qed.

(** X9.  Whatever the phrase, the parser does not return a filter set
    that asks for non-palindromes, for a word count other than 1, 2 or
    3, for a negative minimum length, for a maximum length below -1, or
    for anything but one letter from a to z. *)
Theorem parsed_filters_ranges query filters :
  parse_natural_language_query query = Some filters →
  f_is_palindrome filters ≠ Some false ∧
  key_holds (f_word_count filters) (λ n, (1 ≤ n ≤ 3)%Z) ∧
  key_holds (f_min_length filters) (λ n, (0 ≤ n)%Z) ∧
  key_holds (f_max_length filters) (λ n, (-1 ≤ n)%Z) ∧
  key_holds (f_contains_character filters)
    (λ c, ∃ x, c = [x] ∧ is_a_to_z x = true).
Proof.
  intros Hparse. unfold key_holds.
  rewrite (parse_is_palindrome query filters Hparse),
    (parse_word_count query filters Hparse),
    (parse_contains_character query filters Hparse).
  split; [by case_match|]. split; [|split; [|split]].
  - intros n. repeat case_match; intros [= <-]; lia.
  - intros v Hv. pose proof (parse_min_length query filters Hparse) as Hmin.
    destruct (re_search re_at_least (lower query));
      [|destruct (re_search re_longer_than (lower query)); [|congruence]];
      destruct Hmin as (n & [_ Hn]%int_value & Hmin); simplify_eq; lia.
  - intros v Hv. pose proof (parse_max_length query filters Hparse) as Hmax.
    destruct (re_search re_shorter_than (lower query)); [|congruence].
    destruct Hmax as (n & [_ Hn]%int_value & Hmax). simplify_eq. lia.
  - intros c. destruct (str_contains (py "first vowel") (lower query)).
    + intros [= <-]. by exists 97.
    + destruct (re_search re_contains_letter (lower query)) as [m|] eqn:Hm; [|done].
      apply re_search_contains_letter in Hm as (x & -> & Hx). intros [= <-]. eauto.
Qed.

(** X10.  The parser reads the phrase through [lower] alone, so two
    ASCII phrases that differ only in the case of their letters give the
    same filters or both raise, and [filter_by_natural_language] then
    answers them with the same data and count or the same error; only
    the phrase it echoes tells them apart. *)
Theorem parse_ignores_ascii_case query1 query2 db :
  forallb is_ascii query1 = true → forallb is_ascii query2 = true →
  ascii_lower <$> query1 = ascii_lower <$> query2 →
  parse_natural_language_query query1 = parse_natural_language_query query2 ∧
  match (filter_by_natural_language query1 db).1, (filter_by_natural_language query2 db).1 with
  | Returned r1, Returned r2 =>
      nl_data r1 = nl_data r2 ∧ nl_count r1 = nl_count r2 ∧
      original (nl_interpreted_query r1) = query1 ∧
      original (nl_interpreted_query r2) = query2
  | HTTPException s1 d1, HTTPException s2 d2 => s1 = s2 ∧ d1 = d2
  | ValueError, ValueError => True
  | _, _ => False
  end.
Proof.
  intros Hascii1 Hascii2 Hsame.
  assert (parse_natural_language_query query1 = parse_natural_language_query query2) as Hparse.
  { unfold parse_natural_language_query. cbv zeta.
    by rewrite (lower_ascii query1), (lower_ascii query2), Hsame. }
  split; [exact Hparse|]. unfold filter_by_natural_language. cbv zeta.
  rewrite Hparse. destruct (parse_natural_language_query query2) as [filters|]; [|done].
  by destruct (filters_empty _).
Qed.

End PatternProperties.

(** ** The filter engine and [GET /strings] *)

Section FilterProperties.
Context `{tables : UnicodeData} `{limit : IntMaxStrDigits}.

(** X11.  [apply_filters] works record by record: it distributes over
    concatenation and reversal, filtering twice by the same filters
    changes nothing more, two filter sets can be applied in either
    order, and the result never has more records than the input. *)
Theorem apply_filters_record_by_record f g xs ys :
  apply_filters (xs ++ ys) f = apply_filters xs f ++ apply_filters ys f ∧
  apply_filters (reverse xs) f = reverse (apply_filters xs f) ∧
  apply_filters (apply_filters xs f) f = apply_filters xs f ∧
  apply_filters (apply_filters xs f) g = apply_filters (apply_filters xs g) f ∧
  (length (apply_filters xs f) ≤ length xs)%nat.
Proof.
  rewrite !apply_filters_filter. split; [|split; [|split; [|split]]].
  - apply filter_app.
  - apply filter_reverse.
  - rewrite list_filter_filter. apply list_filter_iff. tauto.
  - rewrite !list_filter_filter. apply list_filter_iff. tauto.
  - apply length_filter.
Qed.

(** X12.  Asking for more gives less: a higher [min_length], a lower
    [max_length], or a key added to a filter set that did not have it,
    leaves a sublist of the records that passed before. *)
Theorem apply_filters_narrows f xs :
  (∀ lo lo', (lo ≤ lo')%Z →
     apply_filters xs (set_min_length lo' f) `sublist_of`
     apply_filters xs (set_min_length lo f)) ∧
  (∀ hi hi', (hi' ≤ hi)%Z →
     apply_filters xs (set_max_length hi' f) `sublist_of`
     apply_filters xs (set_max_length hi f)) ∧
  (∀ v, f_is_palindrome f = None →
     apply_filters xs (set_is_palindrome v f) `sublist_of` apply_filters xs f) ∧
  (∀ v, f_word_count f = None →
     apply_filters xs (set_word_count v f) `sublist_of` apply_filters xs f) ∧
  (∀ c, f_contains_character f = None →
     apply_filters xs (set_contains_character c f) `sublist_of` apply_filters xs f).
Proof.
  assert (∀ f1 f2, (∀ s, satisfies f1 s → satisfies f2 s) →
            apply_filters xs f1 `sublist_of` apply_filters xs f2) as Hnarrow.
  { intros f1 f2 Himpl. rewrite !apply_filters_filter.
    induction xs as [|s xs' IH]; [done|]. rewrite !filter_cons.
    destruct (decide (satisfies f1 s)) as [H1|H1].
    - rewrite decide_True by auto. by constructor.
    - destruct (decide (satisfies f2 s)); [by constructor|done]. }
  unfold satisfies, satisfies_with, key_holds in Hnarrow.
  split; [|split; [|split; [|split]]].
  - intros lo lo' Hlo. apply Hnarrow. cbn. intros s (? & Hmin & ? & ? & ?).
    split; [done|]. split; [|done]. intros v [= <-]. specialize (Hmin lo' eq_refl). lia.
  - intros hi hi' Hhi. apply Hnarrow. cbn. intros s (? & ? & Hmax & ? & ?).
    split; [done|]. split; [done|]. split; [|done].
    intros v [= <-]. specialize (Hmax hi' eq_refl). lia.
  - intros v Hkey. apply Hnarrow. cbn. rewrite Hkey. intros s (? & ? & ? & ? & ?). done.
  - intros v Hkey. apply Hnarrow. cbn. rewrite Hkey. intros s (? & ? & ? & ? & ?). done.
  - intros c Hkey. apply Hnarrow. cbn. rewrite Hkey. intros s (? & ? & ? & ? & ?). done.
Qed.

(** X13.  [GET /strings] raises [InvalidRange] exactly when both bounds
    are given and [min_length] is above [max_length]; equal bounds are
    accepted.  Otherwise it returns the records that satisfy the given
    keys in the order of the store, their number, and the keys with the
    character lower-cased; with no key at all these are all the stored
    records. *)
Theorem get_all_strings_outcome is_palindrome min_length max_length word_count
    contains_character db :
  (get_all_strings is_palindrome min_length max_length word_count contains_character db =
     (InvalidRange, db) ↔
   ∃ lo hi, min_length = Some lo ∧ max_length = Some hi ∧ (lo > hi)%Z) ∧
  ((¬ ∃ lo hi, min_length = Some lo ∧ max_length = Some hi ∧ (lo > hi)%Z) →
   ∃ response,
     get_all_strings is_palindrome min_length max_length word_count contains_character db =
       (Returned response, db) ∧
     sl_filters_applied response =
       {| f_is_palindrome := is_palindrome; f_min_length := min_length;
          f_max_length := max_length; f_word_count := word_count;
          f_contains_character := lower <$> contains_character |} ∧
     sl_data response = filter (satisfies (sl_filters_applied response)) (dict_values db) ∧
     sl_count response = Z.of_nat (length (sl_data response))) ∧
  (∀ n, get_all_strings is_palindrome (Some n) (Some n) word_count contains_character db ≠
     (InvalidRange, db)) ∧
  get_all_strings None None None None None db =
    (Returned {| sl_data := dict_values db; sl_count := Z.of_nat (length db);
                 sl_filters_applied := no_filters |}, db).
Proof.
  unfold get_all_strings. cbv zeta. split; [|split; [|split]].
  - destruct min_length as [lo|], max_length as [hi|];
      try (split; [done|by intros (? & ? & ? & ? & ?)]).
    destruct (bool_decide (lo > hi)%Z) eqn:Hrange.
    + apply bool_decide_eq_true in Hrange. split; [eauto|done].
    + apply bool_decide_eq_false in Hrange. split; [done|].
      by intros (? & ? & [= <-] & [= <-] & ?).
  - intros Hok.
    assert (match min_length, max_length with
            | Some lo, Some hi => bool_decide (lo > hi)%Z
            | _, _ => false
            end = false) as ->.
    { destruct min_length as [lo|], max_length as [hi|]; try done.
      apply bool_decide_eq_false. intros Hrange. apply Hok. eauto. }
    eexists. split; [done|]. cbn. split; [done|]. by rewrite apply_filters_filter.
  - intros n. rewrite bool_decide_eq_false_2 by lia. done.
  - cbn. f_equal. f_equal. unfold dict_values. by rewrite length_fmap.
Qed.

Lemma str_contains_char c hay : str_contains [c] hay = true ↔ c ∈ hay.
Proof.
  rewrite str_contains_true. split.
  - intros (before & after & ->). apply elem_of_app. right. left.
  - intros (before & after & ->)%list_elem_of_split. eauto.
Qed.

(** X14.  [GET /strings] lower-cases the character it is given: for an
    ASCII character it returns the records whose lower-cased value has
    the lower-cased character, so a letter finds the same records in
    either case. *)
Theorem get_all_strings_folds_character c db :
  is_ascii c = true →
  (get_all_strings None None None None (Some [c]) db).1 =
    Returned {|
      sl_data := filter (λ r, ascii_lower c ∈ lower (r_value r)) (dict_values db);
      sl_count :=
        Z.of_nat (length (filter (λ r, ascii_lower c ∈ lower (r_value r)) (dict_values db)));
      sl_filters_applied := contains_only [ascii_lower c]
    |} ∧
  (get_all_strings None None None None (Some [ascii_lower c]) db).1 =
    (get_all_strings None None None None (Some [c]) db).1.
Proof.
  intros Hc.
  assert (lower [c] = [ascii_lower c]) as Hlower
    by (rewrite lower_ascii; [done|by cbn; rewrite Hc]).
  assert (lower [ascii_lower c] = [ascii_lower c]) as Hlower'.
  { rewrite lower_ascii; cbn; [by rewrite ascii_lower_idemp|].
    by rewrite ascii_lower_is_ascii. }
  assert (∀ xs, apply_filters xs (contains_only [ascii_lower c]) =
                filter (λ r, ascii_lower c ∈ lower (r_value r)) xs) as Hfilter.
  { intros xs. unfold apply_filters. cbn. apply list_filter_iff.
    intros r. apply str_contains_char. }
  unfold get_all_strings. cbn -[apply_filters]. rewrite Hlower, Hlower'.
  split; [|done]. by rewrite <-Hfilter.
Qed.

End FilterProperties.

(** ** The store under the endpoints *)

Section StoreFrame.
Context `{tables : UnicodeData} `{limit : IntMaxStrDigits}.

Lemma dict_del_absent {V} k (d : dict V) : k ∉ d.*1 → dict_del k d = d.
Proof.
  unfold dict_del. induction d as [|[k' v] d IH]; [done|]. cbn [fmap list_fmap fst].
  intros [Hne Hk]%not_elem_of_cons. rewrite filter_cons.
  rewrite decide_True by (cbn; congruence). by rewrite IH.
Qed.

Lemma dict_del_item {V} k (v : V) before after :
  NoDup ((before ++ (k, v) :: after).*1) →
  dict_del k (before ++ (k, v) :: after) = before ++ after.
Proof.
  rewrite fmap_app, fmap_cons. cbn [fst].
  intros (_ & Hbefore & [Hafter _]%NoDup_cons)%NoDup_app.
  unfold dict_del. rewrite filter_app, filter_cons.
  rewrite decide_False by (cbn; by intros []).
  fold (dict_del k before) (dict_del k after).
  rewrite !dict_del_absent; [done|done|]. intros Hk. apply (Hbefore k Hk). left.
Qed.

Lemma dict_get_app_ne {V} k k' (v : V) d :
  k' ≠ k → dict_get k (d ++ [(k', v)]) = dict_get k d.
Proof.
  intros Hne. induction d as [|[k0 v0] d IH]; cbn.
  - by rewrite decide_False.
  - by rewrite IH.
Qed.

Lemma dict_get_del_ne {V} k k' (d : dict V) :
  k' ≠ k → dict_get k (dict_del k' d) = dict_get k d.
Proof.
  intros Hne. unfold dict_del. induction d as [|[k0 v0] d IH]; [done|].
  rewrite filter_cons. cbn. destruct (decide (k0 ≠ k')) as [Hk0|Hk0]; cbn.
  - by rewrite IH.
  - rewrite IH. apply dec_stable in Hk0 as ->. by rewrite decide_False.
Qed.

(** X15.  What [POST /strings] stores is found again and can be taken
    back: after a successful [create_string] of a value, [get_string] of
    that value returns the record that was created, the record is the
    last of the store, and [delete_string] of the value leaves the store
    as it was before. *)
Theorem create_get_delete_round_trip now string_input db record db' :
  create_string now string_input db = (Returned record, db') →
  r_value record = value string_input ∧
  dict_values db' = dict_values db ++ [record] ∧
  get_string (value string_input) db' = (Returned record, db') ∧
  delete_string (value string_input) db' = (Returned {| status_code := 204 |}, db).
Proof.
  intros (Hsha & Hfresh & Hrecord & ->)%create_string_Returned.
  split; [|split; [|split]].
  - apply analyze_string_Some in Hrecord as (h & _ & ->). done.
  - unfold dict_values. by rewrite fmap_app.
  - unfold get_string. by rewrite Hsha, dict_get_last.
  - unfold delete_string. rewrite Hsha.
    assert (dict_in (r_id record) (db ++ [(r_id record, record)]) = true) as ->.
    { apply dict_in_true. rewrite fmap_app. apply elem_of_app. right. left. }
    f_equal. unfold dict_del. rewrite filter_app, filter_cons, filter_nil.
    rewrite decide_False by (cbn; by intros []).
    fold (dict_del (r_id record) db). by rewrite dict_del_absent, app_nil_r.
Qed.

Lemma create_string_error now string_input db out db' :
  create_string now string_input db = (out, db') →
  (∀ record, out ≠ Returned record) → db' = db.
Proof.
  unfold create_string. repeat case_match; intros [= <- <-] Herr; try done.
  by destruct (Herr _ eq_refl).
Qed.

(** X16.  Creating or deleting one value leaves every value with another
    hash as it was: [get_string] answers for it as before. *)
Theorem other_values_untouched text other :
  compute_sha256 text ≠ compute_sha256 other →
  ∀ now db,
    (get_string text (create_string now {| value := other |} db).2).1 =
      (get_string text db).1 ∧
    (get_string text (delete_string other db).2).1 = (get_string text db).1.
Proof.
  intros Hne now db. unfold get_string.
  destruct (compute_sha256 text) as [k|] eqn:Hk; [|done].
  split.
  - destruct (create_string now {| value := other |} db) as [[record| | |] db'] eqn:Hcreate.
    + apply create_string_Returned in Hcreate as (Hsha & _ & _ & ->).
      cbn [value] in Hsha. cbn [snd].
      rewrite dict_get_app_ne; [by destruct (dict_get k db)|].
      intros Heq. apply Hne. by rewrite Hsha, Heq.
    + by apply create_string_error in Hcreate as ->.
    + by apply create_string_error in Hcreate as ->.
    + by apply create_string_error in Hcreate as ->.
  - unfold delete_string.
    destruct (compute_sha256 other) as [k'|] eqn:Hk'; [|done].
    destruct (dict_in k' db); [|done]. cbn.
    rewrite dict_get_del_ne; [by destruct (dict_get k db)|].
    intros Heq. apply Hne. by rewrite Heq.
Qed.

(** X17.  The store changes only when [create_string] or [delete_string]
    succeeds: an operation that ends in an error leaves it untouched, and
    so do the three reading endpoints however they end. *)
Theorem store_changes_only_on_success db :
  (∀ now string_input,
     (∀ record, (create_string now string_input db).1 ≠ Returned record) →
     (create_string now string_input db).2 = db) ∧
  (∀ string_value,
     (∀ response, (delete_string string_value db).1 ≠ Returned response) →
     (delete_string string_value db).2 = db) ∧
  (∀ string_value, (get_string string_value db).2 = db) ∧
  (∀ query, (filter_by_natural_language query db).2 = db) ∧
  (∀ is_palindrome min_length max_length word_count contains_character,
     (get_all_strings is_palindrome min_length max_length word_count
        contains_character db).2 = db).
Proof.
  split; [|split; [|split; [|split]]].
  - intros now string_input. unfold create_string.
    repeat case_match; cbn; try done. intros Herr. by destruct (Herr _ eq_refl).
  - intros string_value. unfold delete_string.
    repeat case_match; cbn; try done. intros Herr. by destruct (Herr _ eq_refl).
  - intros string_value. unfold get_string. by repeat case_match.
  - intros query. unfold filter_by_natural_language. by repeat case_match.
  - intros. unfold get_all_strings. by case_match.
Qed.

(** X18.  In a store the service can be in, a successful
    [delete_string] takes out exactly one record, the one whose identity
    is the hash of the given value, and keeps the others in their order;
    the store it leaves is again one the service can be in. *)
Theorem delete_removes_one_record string_value db response db' :
  reachable db →
  delete_string string_value db = (Returned response, db') →
  ∃ before record after,
    db = before ++ (r_id record, record) :: after ∧
    db' = before ++ after ∧
    compute_sha256 string_value = Some (r_id record) ∧
    compute_sha256 (r_value record) = Some (r_id record) ∧
    response = {| status_code := 204 |} ∧
    reachable db'.
Proof.
  intros Hreach Hdelete.
  assert (reachable db') as Hreach' by (by eapply reachable_delete).
  pose proof (reachable_store_ok db Hreach) as Hok.
  unfold delete_string in Hdelete.
  destruct (compute_sha256 string_value) as [k|] eqn:Hk; [|done].
  destruct (dict_in k db) eqn:Hin; [|done]. injection Hdelete as <- <-.
  unfold dict_in in Hin. apply bool_decide_eq_true in Hin as [record Hget].
  apply dict_get_Some in Hget as Hitem.
  destruct (stored_record_key db k record Hok Hitem) as [Hsha _].
  destruct Hok as [Hnodup Hitems]. destruct (Hitems k record Hitem) as [Hid _].
  apply list_elem_of_split in Hitem as (before & after & ->).
  exists before, record, after. rewrite Hid.
  split; [done|]. split; [by apply dict_del_item|]. done.
Qed.

Lemma analyzed_record now record :
  analyze_string now (r_value record) = Some record →
  compute_sha256 (r_value record) = Some (r_id record) ∧
  p_sha256_hash (r_properties record) = r_id record ∧
  p_length (r_properties record) = Z.of_nat (length (r_value record)) ∧
  p_is_palindrome (r_properties record) = is_palindrome (r_value record) ∧
  p_unique_characters (r_properties record) = count_unique_characters (r_value record) ∧
  p_word_count (r_properties record) = count_words (r_value record) ∧
  p_character_frequency_map (r_properties record) =
    get_character_frequency (r_value record).
Proof.
  intros (h & Hh & Hrecord)%analyze_string_Some.
  pose proof (f_equal r_id Hrecord) as Hid.
  pose proof (f_equal r_properties Hrecord) as Hprops.
  cbn [r_id r_properties] in Hid, Hprops. by rewrite Hh, Hid, Hprops.
Qed.

(** X19.  In every store the service can be in, each record is kept
    under its own identity, which is the hash of its value and 64
    characters long; no two records have the same identity or the same
    value; and the properties of each record are those of its value. *)
Theorem reachable_records db :
  reachable db →
  db.*1 = r_id <$> dict_values db ∧
  NoDup (r_id <$> dict_values db) ∧
  NoDup (r_value <$> dict_values db) ∧
  ∀ record, record ∈ dict_values db →
    compute_sha256 (r_value record) = Some (r_id record) ∧
    length (r_id record) = 64%nat ∧
    p_sha256_hash (r_properties record) = r_id record ∧
    p_length (r_properties record) = Z.of_nat (length (r_value record)) ∧
    p_is_palindrome (r_properties record) = is_palindrome (r_value record) ∧
    p_unique_characters (r_properties record) = count_unique_characters (r_value record) ∧
    p_word_count (r_properties record) = count_words (r_value record) ∧
    p_character_frequency_map (r_properties record) =
      get_character_frequency (r_value record).
Proof.
  intros Hreach. destruct (reachable_store_ok db Hreach) as [Hnodup Hitems].
  assert (db.*1 = r_id <$> dict_values db) as Hkeys.
  { unfold dict_values. rewrite <-list_fmap_compose.
    apply list_eq_Forall2, Forall2_fmap, Forall_Forall2_diag, Forall_forall.
    intros [k record] Hin. destruct (Hitems k record Hin) as [Hid _]. done. }
  assert (∀ record, record ∈ dict_values db →
            ∃ now, analyze_string now (r_value record) = Some record) as Hrecords.
  { intros record ([k record'] & -> & Hin)%list_elem_of_fmap.
    by destruct (Hitems k record' Hin) as [_ Hnow]. }
  split; [exact Hkeys|]. split; [by rewrite <-Hkeys|]. split.
  - apply (NoDup_fmap_1 (λ v, default [] (compute_sha256 v))).
    rewrite <-list_fmap_compose.
    assert ((λ v, default [] (compute_sha256 v)) ∘ r_value <$> dict_values db
            = r_id <$> dict_values db) as ->; [|by rewrite <-Hkeys].
    apply list_eq_Forall2, Forall2_fmap, Forall_Forall2_diag, Forall_forall.
    intros record [now Hrecord]%Hrecords.
    apply analyzed_record in Hrecord as [Hsha _].
    unfold compose. by rewrite Hsha.
  - intros record [now Hrecord]%Hrecords.
    apply analyzed_record in Hrecord as (Hsha & Hprops).
    split; [done|]. split; [|done].
    unfold compute_sha256 in Hsha. apply fmap_Some in Hsha as (msg & _ & ->).
    apply hexdigest_digits.
Qed.

(** X20.  [create_string], [get_string] and [delete_string] end in the
    [UnicodeEncodeError] of [compute_sha256] exactly when the text has a
    code point that UTF-8 does not encode; the two listing endpoints
    never do, since they hash nothing. *)
Theorem unencodable_text_raises text db :
  (∀ now, (create_string now {| value := text |} db).1 = UnicodeEncodeError ↔
     forallb is_scalar_value text = false) ∧
  ((get_string text db).1 = UnicodeEncodeError ↔ forallb is_scalar_value text = false) ∧
  ((delete_string text db).1 = UnicodeEncodeError ↔ forallb is_scalar_value text = false) ∧
  (∀ query, (filter_by_natural_language query db).1 ≠ UnicodeEncodeError) ∧
  (∀ is_palindrome min_length max_length word_count contains_character,
     (get_all_strings is_palindrome min_length max_length word_count
        contains_character db).1 ≠ UnicodeEncodeError).
Proof.
  assert (compute_sha256 text = None ↔ forallb is_scalar_value text = false) as Hnone.
  { rewrite eq_None_not_Some, compute_sha256_scalar. by destruct (forallb _ _). }
  split; [|split; [|split; [|split]]].
  - intros now. rewrite <-Hnone. unfold create_string. cbn [value].
    destruct (compute_sha256 text) as [h|] eqn:Hh; [|done].
    destruct (dict_in h db); [done|].
    destruct (analyze_string now text) as [record|] eqn:Hrecord; [done|].
    assert (is_Some (analyze_string now text)) as [? ?]; [|congruence].
    apply analyze_string_total, compute_sha256_scalar. eauto.
  - rewrite <-Hnone. unfold get_string. by repeat case_match.
  - rewrite <-Hnone. unfold delete_string. by repeat case_match.
  - intros query. unfold filter_by_natural_language. by repeat case_match.
  - intros. unfold get_all_strings. by case_match.
Qed.

End StoreFrame.

(** ** The further properties at concrete inputs *)

Lemma is_palindrome_ascii_witness :
  is_palindrome (reverse (py "Step on no pets")) = is_palindrome (py "Step on no pets") ∧
  is_palindrome (ascii_lower <$> py "Step on no pets") = is_palindrome (py "Step on no pets") ∧
  is_palindrome (py "Step on no pets" ++ reverse (py "Step on no pets")) = true ∧
  (∀ a b, py "Step on no pets" = a ++ b →
     is_palindrome (a ++ 32 :: b) = is_palindrome (py "Step on no pets")).
Proof. exact (is_palindrome_ascii (py "Step on no pets") eq_refl). Defined.

Lemma max_length_from_shorter_than_witness :
  ∃ filters,
    parse_natural_language_query (py "strings shorter than 20 characters") = Some filters ∧
    f_max_length filters = Some 19%Z ∧
    ∃ digits n,
      leftmost_number (py "shorter than ") is_digit
        (lower (py "strings shorter than 20 characters")) digits ∧
      int digits = Some n ∧ 19%Z = (n - 1)%Z.
Proof.
  assert (parse_natural_language_query (py "strings shorter than 20 characters") =
          Some (set_max_length 19 no_filters)) as Hparse by (vm_compute; reflexivity).
  exists (set_max_length 19 no_filters). split; [exact Hparse|]. split; [reflexivity|].
  destruct (max_length_from_shorter_than _ _ Hparse) as [Hvalue _].
  exact (proj1 (Hvalue 19%Z) eq_refl).
Defined.

Lemma min_length_from_at_least_or_longer_than_witness :
  ∃ filters,
    parse_natural_language_query (py "longer than 10 and at least 5 characters")
      = Some filters ∧
    f_min_length filters = Some 5%Z ∧
    ∃ digits,
      leftmost_number (py "at least ") is_digit
        (lower (py "longer than 10 and at least 5 characters")) digits ∧
      int digits = Some 5%Z.
Proof.
  assert (parse_natural_language_query (py "longer than 10 and at least 5 characters") =
          Some (set_min_length 5 no_filters)) as Hparse by (vm_compute; reflexivity).
  exists (set_min_length 5 no_filters). split; [exact Hparse|]. split; [reflexivity|].
  destruct (min_length_from_at_least_or_longer_than _ _ Hparse) as [Hvalue Hunset].
  destruct (proj1 (Hvalue 5%Z) eq_refl) as [Hleast|[Hnone _]]; [exact Hleast|].
  exfalso. apply Hnone. exists (py "longer than 10 and "), 53, (py " characters").
  split; reflexivity.
Defined.

Lemma contains_character_from_letter_phrase_witness :
  ∃ filters,
    parse_natural_language_query (py "strings containing the letter z") = Some filters ∧
    f_contains_character filters = Some (py "z") ∧
    leftmost_letter (lower (py "strings containing the letter z")) 122.
Proof.
  assert (parse_natural_language_query (py "strings containing the letter z") =
          Some (contains_only (py "z"))) as Hparse by (vm_compute; reflexivity).
  exists (contains_only (py "z")). split; [exact Hparse|]. split; [reflexivity|].
  destruct (contains_character_from_letter_phrase _ _ Hparse) as [_ Hletter].
  destruct (Hletter eq_refl) as [Hvalue _].
  destruct (proj1 (Hvalue (py "z")) eq_refl) as (x & Hx & Hleft).
  injection Hx as <-. exact Hleft.
Defined.

Lemma parsed_filters_ranges_witness :
  ∃ filters,
    parse_natural_language_query (py "single word palindromes shorter than 0") =
      Some filters ∧
    f_max_length filters = Some (-1)%Z ∧
    f_is_palindrome filters ≠ Some false ∧
    key_holds (f_word_count filters) (λ n, (1 ≤ n ≤ 3)%Z) ∧
    key_holds (f_max_length filters) (λ n, (-1 ≤ n)%Z).
Proof.
  assert (parse_natural_language_query (py "single word palindromes shorter than 0") =
          Some {| f_is_palindrome := Some true; f_min_length := None;
                  f_max_length := Some (-1)%Z; f_word_count := Some 1%Z;
                  f_contains_character := None |}) as Hparse
    by (vm_compute; reflexivity).
  eexists. split; [exact Hparse|]. split; [reflexivity|].
  destruct (parsed_filters_ranges _ _ Hparse) as (Hpal & Hwords & _ & Hmax & _).
  split; [exact Hpal|]. split; [exact Hwords|exact Hmax].
Defined.

Lemma parse_ignores_ascii_case_witness :
  parse_natural_language_query (py "Single Word PALINDROMIC strings") =
    parse_natural_language_query (py "single word palindromic strings") ∧
  f_word_count <$> parse_natural_language_query (py "Single Word PALINDROMIC strings") =
    Some (Some 1%Z).
Proof.
  destruct (parse_ignores_ascii_case (py "Single Word PALINDROMIC strings")
              (py "single word palindromic strings") [] eq_refl eq_refl eq_refl)
    as [Hparse _].
  split; [exact Hparse|]. by vm_compute.
Defined.

Lemma get_all_strings_folds_character_witness :
  (get_all_strings None None None None (Some (py "z")) (stored clock_a (py "zebra animal"))).1 =
    (get_all_strings None None None None (Some (py "Z")) (stored clock_a (py "zebra animal"))).1 ∧
  ∃ data,
    (get_all_strings None None None None (Some (py "Z")) (stored clock_a (py "zebra animal"))).1
      = Returned data ∧
    r_value <$> sl_data data = [py "zebra animal"].
Proof.
  destruct (get_all_strings_folds_character 90 (stored clock_a (py "zebra animal")) eq_refl)
    as [Hdata Hsame].
  split; [exact Hsame|]. eexists. split; [exact Hdata|]. by vm_compute.
Defined.

Lemma create_get_delete_round_trip_witness :
  ∃ record db',
    create_string clock_a {| value := py "retrieve me please" |} [] = (Returned record, db') ∧
    r_value record = py "retrieve me please" ∧
    dict_values db' = [record] ∧
    get_string (py "retrieve me please") db' = (Returned record, db') ∧
    delete_string (py "retrieve me please") db' = (Returned {| status_code := 204 |}, []).
Proof.
  destruct (create_string clock_a {| value := py "retrieve me please" |} [])
    as [[record| | |] db'] eqn:Hcreate; [|vm_compute in Hcreate; discriminate Hcreate..].
  exists record, db'. split; [reflexivity|].
  exact (create_get_delete_round_trip clock_a {| value := py "retrieve me please" |} []
           record db' Hcreate).
Defined.

Lemma other_values_untouched_witness :
  (get_string (py "noon") (create_string clock_b {| value := py "level" |}
                             (stored clock_a (py "noon"))).2).1 =
    (get_string (py "noon") (stored clock_a (py "noon"))).1 ∧
  (get_string (py "noon") (delete_string (py "level") (stored clock_a (py "noon"))).2).1 =
    (get_string (py "noon") (stored clock_a (py "noon"))).1.
Proof.
  assert (compute_sha256 (py "noon") ≠ compute_sha256 (py "level")) as Hne
    by (intros Heq; vm_compute in Heq; discriminate Heq).
  exact (other_values_untouched (py "noon") (py "level") Hne clock_b
           (stored clock_a (py "noon"))).
Defined.

Lemma delete_removes_one_record_witness :
  ∃ record,
    stored clock_a (py "delete me now") = [(r_id record, record)] ∧
    compute_sha256 (py "delete me now") = Some (r_id record) ∧
    delete_string (py "delete me now") (stored clock_a (py "delete me now")) =
      (Returned {| status_code := 204 |}, []).
Proof.
  assert (delete_string (py "delete me now") (stored clock_a (py "delete me now")) =
            (Returned {| status_code := 204 |}, [])) as Hdelete
    by (vm_compute; reflexivity).
  assert (reachable (stored clock_a (py "delete me now"))) as Hreach.
  { unfold stored. eapply reachable_create; [apply reachable_empty|].
    apply surjective_pairing. }
  destruct (delete_removes_one_record _ _ _ _ Hreach Hdelete)
    as (before & record & after & Hdb & Hdb' & Hsha & _).
  symmetry in Hdb'. apply app_eq_nil in Hdb' as [-> ->].
  exists record. split; [exact Hdb|]. split; [exact Hsha|exact Hdelete].
Defined.

Lemma reachable_records_witness :
  NoDup (r_id <$> dict_values noon_and_not) ∧
  NoDup (r_value <$> dict_values noon_and_not) ∧
  r_value <$> dict_values noon_and_not = [py "noon"; py "not a palindrome here"].
Proof.
  assert (reachable noon_and_not) as Hreach.
  { unfold noon_and_not, post.
    eapply reachable_create; [|apply surjective_pairing].
    eapply reachable_create; [apply reachable_empty|apply surjective_pairing]. }
  destruct (reachable_records noon_and_not Hreach) as (_ & Hids & Hvalues & _).
  split; [exact Hids|]. split; [exact Hvalues|]. by vm_compute.
Defined.
